(** * Snake Drill Trainer: the drill generator, the speech cue player and the
    drill runner, embedded from the TypeScript sources.

    - [src/types.ts]                   : [Direction], [DrillCommand]
    - [src/services/drillGenerator.ts] : module [Generator]
    - [src/services/speech.ts]         : module [Speech]
    - [src/components/DrillRunner.tsx] : module [Runner]

    JavaScript numbers are modelled by exact numbers: click values, positions
    and command counts are integers ([Z]); intervals and speech rates are
    rationals ([Q]), so floating-point rounding is idealised away. *)

From Stdlib Require Import ZArith QArith Qround Qminmax List Lia Lqa Permutation.
From Stdlib Require Import Ascii.
From stdpp Require Import base list gmap strings pretty.

Import ListNotations.

(* ------------------------------------------------------------------------- *)
(** ** types.ts *)

Inductive Direction := Up | Down | Left | Right.

Record DrillCommand := { direction : Direction; value : Z }.

#[global] Instance Direction_eq_dec : EqDecision Direction.
Proof. solve_decision. Defined.

#[global] Instance DrillCommand_eq_dec : EqDecision DrillCommand.
Proof. solve_decision. Defined.

(** The string carried by each member of the string enum. *)
Definition Direction_str (d : Direction) : string :=
  match d with
  | Up => "UP"
  | Down => "DOWN"
  | Left => "LEFT"
  | Right => "RIGHT"
  end.

(* ------------------------------------------------------------------------- *)
(** ** Math.random as an explicit source of draws

    A call of [Math.random()] yields a double in [[0,1)] that is a multiple of
    [2^-53]; a draw is kept as its numerator over [RES].  The source is the
    stream of the raw numbers the host will hand out, threaded through the
    code as state. *)

Module Rand.

Definition RES : N := 2 ^ 53.

Definition Rng := nat -> N.

Definition M (A : Type) : Type := Rng -> A * Rng.

Definition ret {A} (a : A) : M A := fun g => (a, g).

Definition bind {A B} (m : M A) (k : A -> M B) : M B :=
  fun g => let (a, g') := m g in k a g'.

(** [Math.random()]: the numerator of the next draw. *)
Definition Math_random : M N :=
  fun g => ((g 0%nat mod RES)%N, fun i => g (S i)).

(** [Math.floor(r * n)] for a draw [r] and an array length [n]. *)
Definition floor_scaled (r : N) (n : nat) : nat :=
  N.to_nat (r * N.of_nat n / RES).

(** [r > 0.5] for a draw [r]. *)
Definition gt_half (r : N) : bool := (RES <? 2 * r)%N.

(** A fixed source of draws, for running the code on examples. *)
Definition sample_rng : Rng :=
  fun i => (N.of_nat i * 1234567890123457 + 4503599627370497)%N.

End Rand.

Notation "'let*' x ':=' m 'in' k" := (Rand.bind m (fun x => k))
  (at level 10, x name, m at level 100, k at level 200).

(* ------------------------------------------------------------------------- *)
(** ** services/drillGenerator.ts *)

Module Generator.
Import Rand.
Local Open Scope Z_scope.

Definition isMoveValid (command : DrillCommand)
    (currentTraverse currentElevation maxTAndE : Z) : bool :=
  match direction command with
  | Up => currentElevation + value command <=? maxTAndE
  | Down => currentElevation - value command >=? - maxTAndE
  | Left => currentTraverse - value command >=? - maxTAndE
  | Right => currentTraverse + value command <=? maxTAndE
  end.

Definition MAX_GENERATION_ATTEMPTS : nat := 10.

(** [numCommands % 2 === 0 ? numCommands : numCommands + 1]; the remainder of
    JavaScript takes the sign of the dividend, as [Z.rem] does. *)
Definition totalCommands (numCommands : Z) : Z :=
  if Z.rem numCommands 2 =? 0 then numCommands else numCommands + 1.

Definition halfCommands (numCommands : Z) : Z := totalCommands numCommands / 2.

(** Step 1: the loop [for (i = 0; i < halfCommands; i++)], [n] iterations left.
    [clickValues[k]] is [nth k clickValues 0]; the index is always in range
    (lemma [floor_scaled_lt]). *)
Fixpoint positiveLoop (n : nat) (clickValues : list Z) : M (list DrillCommand) :=
  match n with
  | O => ret []
  | S n' =>
      let* r1 := Math_random in
      let value := nth (floor_scaled r1 (length clickValues)) clickValues 0 in
      let* r2 := Math_random in
      let isHorizontal := gt_half r2 in
      let* rest := positiveLoop n' clickValues in
      ret ({| direction := if isHorizontal then Right else Up; value := value |}
             :: rest)
  end.

(** Step 2: the exact opposite of a positive command. *)
Definition opposite (command : DrillCommand) : DrillCommand :=
  {| direction := match direction command with Right => Left | _ => Down end;
     value := value command |}.

Definition validMoveIndices (availableCommands : list DrillCommand)
    (simTraverse simElevation maxTAndE : Z) : list nat :=
  List.filter
    (fun index =>
       match availableCommands !! index with
       | Some c => isMoveValid c simTraverse simElevation maxTAndE
       | None => false
       end)
    (seq 0 (length availableCommands)).

(** The update of the simulated state by the chosen command. *)
Definition applyCommand (c : DrillCommand) (pos : Z * Z) : Z * Z :=
  let (simTraverse, simElevation) := pos in
  match direction c with
  | Up => (simTraverse, simElevation + value c)
  | Down => (simTraverse, simElevation - value c)
  | Left => (simTraverse - value c, simElevation)
  | Right => (simTraverse + value c, simElevation)
  end.

(** Step 3: the [while (availableCommands.length > 0)] loop.  Every iteration
    that does not break removes one command from the pool, so [fuel] equal to
    the length of the pool is never exhausted before the pool is.  The result
    is [finalDrill], in the order of the pushes.  The two lookups cannot fail
    (lemmas [valid_pick_in_range] and [validMoveIndices_lookup]). *)
Fixpoint pickLoop (fuel : nat) (availableCommands : list DrillCommand)
    (pos : Z * Z) (maxTAndE : Z) : M (list DrillCommand) :=
  match fuel with
  | O => ret []
  | S fuel' =>
      match availableCommands with
      | [] => ret []
      | _ =>
          let valid := validMoveIndices availableCommands pos.1 pos.2 maxTAndE in
          match valid with
          | [] => ret []
          | _ =>
              let* r := Math_random in
              match valid !! floor_scaled r (length valid) with
              | None => ret []
              | Some randomValidIndex =>
                  match availableCommands !! randomValidIndex with
                  | None => ret []
                  | Some chosenCommand =>
                      let* rest :=
                        pickLoop fuel' (delete randomValidIndex availableCommands)
                          (applyCommand chosenCommand pos) maxTAndE in
                      ret (chosenCommand :: rest)
                  end
              end
          end
      end
  end.

(** What a call of [generateDrill] leaves behind: the returned array, the
    number of iterations of the attempt loop that were entered, and the lines
    written with [console.error]. *)
Record Outcome := {
  drill : list DrillCommand;
  attempts : nat;
  errors : list string
}.

Definition failure_message : string :=
  "Failed to generate a valid drill after 10 attempts. Please try different settings.".

(** One iteration of the attempt loop: [Some finalDrill] on success. *)
Definition attemptOnce (numCommands : Z) (clickValues : list Z) (maxTAndE : Z)
    : M (option (list DrillCommand)) :=
  let total := totalCommands numCommands in
  let half := halfCommands numCommands in
  let* positiveCommands := positiveLoop (Z.to_nat half) clickValues in
  let negativeCommands := map opposite positiveCommands in
  let availableCommands := positiveCommands ++ negativeCommands in
  let* finalDrill := pickLoop (length availableCommands) availableCommands (0, 0) maxTAndE in
  ret (if Z.of_nat (length finalDrill) =? total then Some finalDrill else None).

(** The loop [for (attempt = 0; attempt < MAX_GENERATION_ATTEMPTS; attempt++)]
    with [remaining] iterations to go and [attempt] already made. *)
Fixpoint attemptLoop (remaining attempt : nat) (numCommands : Z)
    (clickValues : list Z) (maxTAndE : Z) : M Outcome :=
  match remaining with
  | O => ret {| drill := []; attempts := attempt; errors := [failure_message] |}
  | S remaining' =>
      let* res := attemptOnce numCommands clickValues maxTAndE in
      match res with
      | Some finalDrill =>
          ret {| drill := finalDrill; attempts := S attempt; errors := [] |}
      | None => attemptLoop remaining' (S attempt) numCommands clickValues maxTAndE
      end
  end.

Definition generateDrill (numCommands : Z) (clickValues : list Z) (maxTAndE : Z)
    : M Outcome :=
  if (length clickValues =? 0)%nat || existsb (fun v => v >? maxTAndE) clickValues
  then ret {| drill := []; attempts := 0; errors := [] |}
  else attemptLoop MAX_GENERATION_ATTEMPTS 0 numCommands clickValues maxTAndE.

(** *** Vocabulary of the properties *)

(** The position reached from (0,0) by a list of commands taken as signed
    deltas, as (traverse, elevation). *)
Definition positionAfter (cmds : list DrillCommand) : Z * Z :=
  fold_left (fun pos c => applyCommand c pos) cmds (0, 0).

Definition withinBound (maxTAndE : Z) (pos : Z * Z) : Prop :=
  - maxTAndE <= pos.1 <= maxTAndE /\ - maxTAndE <= pos.2 <= maxTAndE.

(** Signed magnitudes per axis. *)
Definition elevationDelta (c : DrillCommand) : Z :=
  match direction c with Up => value c | Down => - value c | _ => 0 end.

Definition traverseDelta (c : DrillCommand) : Z :=
  match direction c with Right => value c | Left => - value c | _ => 0 end.

Definition sumZ (l : list Z) : Z := fold_right Z.add 0 l.

Definition elevationSum (cmds : list DrillCommand) : Z := sumZ (map elevationDelta cmds).
Definition traverseSum (cmds : list DrillCommand) : Z := sumZ (map traverseDelta cmds).

(** How many times a command occurs in a sequence. *)
Definition occurrences (d : Direction) (v : Z) (cmds : list DrillCommand) : nat :=
  count_occ DrillCommand_eq_dec cmds {| direction := d; value := v |}.

End Generator.

(* ------------------------------------------------------------------------- *)
(** ** services/speech.ts *)

Module Speech.
Local Open Scope Q_scope.

(** The fields of a [SpeechSynthesisUtterance] the code reads or writes. *)
Record SpeechSynthesisUtterance := {
  text : string;
  pitch : Q;
  volume : Q;
  rate : Q
}.

(** [new SpeechSynthesisUtterance(text)]: pitch, volume and rate default to 1. *)
Definition newUtterance (text : string) : SpeechSynthesisUtterance :=
  {| text := text; pitch := 1; volume := 1; rate := 1 |}.

(** The template string [`${command.direction}_${command.value}`]; an integer
    value prints as its decimal numeral (JavaScript switches to the exponent
    form from 10^21 on, which is left out). *)
Definition commandToKey (command : DrillCommand) : string :=
  Direction_str (direction command) +:+ "_" +:+ pretty (value command).

(** Calls received by [window.speechSynthesis], oldest first. *)
Inductive SynthCall :=
  | Cancel
  | Speak (u : SpeechSynthesisUtterance).

(** The host: the calls made on [window.speechSynthesis] so far and the lines
    written with [console.warn]. *)
Record Browser := {
  synthCalls : list SynthCall;
  warnings : list string
}.

(** The utterances speaking or queued after a history of calls: [speak]
    enqueues, [cancel] empties the queue. *)
Definition inFlight (calls : list SynthCall) : list SpeechSynthesisUtterance :=
  fold_left (fun q c => match c with Cancel => [] | Speak u => q ++ [u] end) calls [].

Record CommandPlayer := {
  isSupported : bool;
  utteranceCache : gmap string SpeechSynthesisUtterance
}.

Definition directions : list Direction := [Up; Down; Left; Right].

(** The body of the inner loop of [preload]. *)
Definition cacheCommand (value : Z) (cache : gmap string SpeechSynthesisUtterance)
    (direction : Direction) : gmap string SpeechSynthesisUtterance :=
  let key := commandToKey {| direction := direction; value := value |} in
  let text := Direction_str direction +:+ " " +:+ pretty value in
  let utterance := newUtterance text in
  let utterance :=
    {| text := Speech.text utterance; pitch := 1; volume := 1; rate := rate utterance |} in
  <[key := utterance]> cache.

(** The two nested loops of [preload], outer over the values and inner over
    the directions, from a given cache. *)
Definition preloadLoop (clickValues : list Z)
    (cache : gmap string SpeechSynthesisUtterance) : gmap string SpeechSynthesisUtterance :=
  fold_left (fun cache value => fold_left (cacheCommand value) directions cache)
    clickValues cache.

Definition preload (clickValues : list Z) (p : CommandPlayer) : CommandPlayer :=
  if negb (isSupported p) then p
  else {| isSupported := isSupported p; utteranceCache := preloadLoop clickValues ∅ |}.

(** [Math.round]: the nearest integer, halves going up. *)
Definition Math_round (x : Q) : Z := Qfloor (x + (1 # 2)).

Definition calculateAutoSpeed (interval : Q) : Q :=
  let baseSpeed := 2 in
  if Qle_bool 1 interval then baseSpeed
  else
    let intervalDifference := 1 - interval in
    let steps := Math_round (intervalDifference * 10) in
    let speedIncrease := inject_Z steps * (3 # 10) in
    baseSpeed + speedIncrease.

(** [play] on the player and the host.  The cached utterance is one object:
    the rate written before [speak] stays in the cache. *)
Definition play (command : DrillCommand) (interval : Q) (manualSpeed : bool)
    (speedMultiplier : Q) (s : CommandPlayer * Browser) : CommandPlayer * Browser :=
  let (p, b) := s in
  if negb (isSupported p) then s
  else
    let key := commandToKey command in
    match utteranceCache p !! key with
    | None =>
        (p, {| synthCalls := synthCalls b;
               warnings := warnings b ++
                 ["Command not preloaded: " +:+ Direction_str (direction command)
                    +:+ " " +:+ pretty (value command)] |})
    | Some utterance =>
        let finalRate := if manualSpeed then speedMultiplier else calculateAutoSpeed interval in
        let utterance' :=
          {| text := text utterance; pitch := pitch utterance; volume := volume utterance;
             rate := Qmin 10 (Qmax (1 # 2) finalRate) |} in
        ({| isSupported := isSupported p;
            utteranceCache := <[key := utterance']> (utteranceCache p) |},
         {| synthCalls := synthCalls b ++ [Cancel; Speak utterance'];
            warnings := warnings b |})
    end.

Definition stop (s : CommandPlayer * Browser) : CommandPlayer * Browser :=
  let (p, b) := s in
  if isSupported p
  then (p, {| synthCalls := synthCalls b ++ [Cancel]; warnings := warnings b |})
  else s.

(** *** Vocabulary of the properties *)

(** The rate read off the words of the specification: 2.0 plus 0.3 for every
    full 0.1s that the interval falls below 1.0s. *)
Definition spec_auto_rate (interval : Q) : Q :=
  if Qle_bool 1 interval then 2
  else 2 + inject_Z (Qfloor ((1 - interval) / (1 # 10))) * (3 # 10).

(** The utterances handed to [speak] in a history of calls. *)
Definition spoken (calls : list SynthCall) : list SpeechSynthesisUtterance :=
  omap (fun c => match c with Speak u => Some u | Cancel => None end) calls.

(** The cue that [preload] builds for a direction and a value. *)
Definition utteranceFor (d : Direction) (v : Z) : SpeechSynthesisUtterance :=
  {| text := Direction_str d +:+ " " +:+ pretty v; pitch := 1; volume := 1; rate := 1 |}.

(** The entries of the pairs of the four directions and the given values. *)
Definition entriesFor (values : list Z) : list (string * SpeechSynthesisUtterance) :=
  flat_map (fun v => map (fun d => (commandToKey {| direction := d; value := v |},
                                    utteranceFor d v)) directions) values.

(** A supported player that was never preloaded, and a host in which a cue is
    being spoken. *)
Definition freshPlayer : CommandPlayer :=
  {| isSupported := true; utteranceCache := ∅ |}.

Definition busyBrowser : Browser :=
  {| synthCalls := [Speak (utteranceFor Up 5)]; warnings := [] |}.

(** *** The rest of the class *)

(** The constructor: the platform is supported when [window] has a
    [speechSynthesis]; the cache starts empty. *)
Definition newCommandPlayer (hasSpeechSynthesis : bool) : CommandPlayer :=
  {| isSupported := hasSpeechSynthesis; utteranceCache := ∅ |}.

(** [warmUp]: a silent utterance of one space is spoken, without a cancel. *)
Definition warmUp (s : CommandPlayer * Browser) : CommandPlayer * Browser :=
  let (p, b) := s in
  if negb (isSupported p) then s
  else
    let utterance := newUtterance " " in
    let utterance :=
      {| text := text utterance; pitch := pitch utterance; volume := 0;
         rate := rate utterance |} in
    (p, {| synthCalls := synthCalls b ++ [Speak utterance]; warnings := warnings b |}).

(** A call of one of the public methods, and a sequence of calls on the one
    player of the module. *)
Inductive Method :=
  | MWarmUp
  | MPreload (clickValues : list Z)
  | MPlay (command : DrillCommand) (interval : Q) (manualSpeed : bool) (speedMultiplier : Q)
  | MStop.

Definition invoke (s : CommandPlayer * Browser) (m : Method) : CommandPlayer * Browser :=
  match m with
  | MWarmUp => warmUp s
  | MPreload clickValues => (preload clickValues s.1, s.2)
  | MPlay command interval manualSpeed speedMultiplier =>
      play command interval manualSpeed speedMultiplier s
  | MStop => stop s
  end.

Definition invokeAll (ms : list Method) (s : CommandPlayer * Browser)
    : CommandPlayer * Browser :=
  fold_left invoke ms s.

(** What a call other than [preload] does to the cache: the keys stay, and
    under each key the words, the pitch and the volume stay. *)
Definition sameCues (c1 c2 : gmap string SpeechSynthesisUtterance) : Prop :=
  forall k,
    match c1 !! k, c2 !! k with
    | Some u1, Some u2 => text u1 = text u2 /\ pitch u1 = pitch u2 /\ volume u1 = volume u2
    | None, None => True
    | _, _ => False
    end.

Definition isWarmUp (m : Method) : bool :=
  match m with MWarmUp => true | _ => false end.

Definition isPreload (m : Method) : bool :=
  match m with MPreload _ => true | _ => false end.

End Speech.

(* ------------------------------------------------------------------------- *)
(** ** components/DrillRunner.tsx *)

Module Runner.
Local Open Scope Z_scope.

Record Props := {
  commands : list DrillCommand;
  commandInterval : Q;
  voiceEnabled : bool;
  ttsManualSpeed : bool;
  ttsSpeedMultiplier : Q;
  maxTAndE : Z
}.

(** The component's state: the index held by [useState] and the position held
    by [tAndERef], as (traverse, elevation). *)
Record State := {
  currentCommandIndex : nat;
  tAndERef : Z * Z
}.

Definition initialState : State :=
  {| currentCommandIndex := 0; tAndERef := (0, 0) |}.

Inductive Timer := gridUpdateTimer | nextCommandTimer.

(** What a run of the effect, or of a timer callback, does to the outside. *)
Inductive Action :=
  | OnFinish (finalTraverse finalElevation : Z)
  | PlayerPlay (command : DrillCommand) (interval : Q) (manualSpeed : bool) (speed : Q)
  | PlayerStop
  | SetTimeout (t : Timer) (delay_ms : Q).

Definition MIN_SPEECH_INTERVAL_S : Q := 1 # 10.

(** The body of the effect that handles speech and command progression. *)
Definition effect (p : Props) (s : State) : list Action :=
  match commands p !! currentCommandIndex s with
  | None =>
      if (0 <? length (commands p))%nat
      then [OnFinish (tAndERef s).1 (tAndERef s).2]
      else []
  | Some currentCommand =>
      (if voiceEnabled p
       then [if Qle_bool MIN_SPEECH_INTERVAL_S (commandInterval p)
             then PlayerPlay currentCommand (commandInterval p) (ttsManualSpeed p)
                    (ttsSpeedMultiplier p)
             else PlayerStop]
       else [])
      ++ [SetTimeout gridUpdateTimer ((commandInterval p * 1000) / 2)%Q;
          SetTimeout nextCommandTimer (commandInterval p * 1000)%Q]
  end.

(** The callback of [gridUpdateTimer] for [currentCommand]. *)
Definition gridUpdate (p : Props) (currentCommand : DrillCommand) (s : State) : State :=
  let (traverse, elevation) := Generator.applyCommand currentCommand (tAndERef s) in
  let traverse := Z.max (- maxTAndE p) (Z.min (maxTAndE p) traverse) in
  let elevation := Z.max (- maxTAndE p) (Z.min (maxTAndE p) elevation) in
  {| currentCommandIndex := currentCommandIndex s; tAndERef := (traverse, elevation) |}.

(** The callback of [nextCommandTimer]. *)
Definition nextCommand (p : Props) (s : State) : State * list Action :=
  if Z.of_nat (currentCommandIndex s) >=? Z.of_nat (length (commands p)) - 1
  then (s, [OnFinish (tAndERef s).1 (tAndERef s).2])
  else ({| currentCommandIndex := S (currentCommandIndex s); tAndERef := tAndERef s |}, []).

(** *** Vocabulary of the properties *)

Definition finishes (acts : list Action) : Prop :=
  exists t e, In (OnFinish t e) acts.

Definition schedules (acts : list Action) : Prop :=
  exists t d, In (SetTimeout t d) acts.

(** *** The run of a drill

    Both timers of a command are armed by one run of the effect, the grid
    update first and with half the delay of the advance, so the grid update
    fires first; when the advance changes the index the component renders
    again and the effect runs for the next command.  With nothing that stops
    or resets in between, the run from a state is the sequence of these
    cycles, up to the call of [onFinish] or to an effect that arms nothing.
    Every cycle but the last moves the index one further, so [fuel] above the
    number of commands is never used up. *)
Fixpoint runFrom (fuel : nat) (p : Props) (s : State) : State * list Action :=
  match fuel with
  | O => (s, [])
  | S fuel' =>
      match commands p !! currentCommandIndex s with
      | None => (s, effect p s)
      | Some currentCommand =>
          let s1 := gridUpdate p currentCommand s in
          let (s2, acts) := nextCommand p s1 in
          match acts with
          | [] =>
              let (s3, rest) := runFrom fuel' p s2 in
              (s3, effect p s ++ rest)
          | _ => (s2, effect p s ++ acts)
          end
      end
  end.

Definition runDrill (p : Props) : State * list Action :=
  runFrom (S (length (commands p))) p initialState.

(** The clamp of the grid update, and the position it leaves after a list of
    commands from a position. *)
Definition clamp (m : Z) (pos : Z * Z) : Z * Z :=
  (Z.max (- m) (Z.min m pos.1), Z.max (- m) (Z.min m pos.2)).

Definition clampedPositionFrom (m : Z) (cmds : list DrillCommand) (pos : Z * Z) : Z * Z :=
  fold_left (fun pos c => clamp m (Generator.applyCommand c pos)) cmds pos.

(** What is read off a trace: the positions reported, the commands handed to
    the player, the timers armed. *)
Definition reported (acts : list Action) : list (Z * Z) :=
  omap (fun a => match a with OnFinish t e => Some (t, e) | _ => None end) acts.

Definition played (acts : list Action) : list DrillCommand :=
  omap (fun a => match a with PlayerPlay c _ _ _ => Some c | _ => None end) acts.

Definition armed (acts : list Action) : list Timer :=
  omap (fun a => match a with SetTimeout t _ => Some t | _ => None end) acts.

(** The trace of the cycles of the commands [rest] from the position [pos]:
    per command what the effect does, and after the last one the report. *)
Fixpoint cycles (p : Props) (rest : list DrillCommand) (pos : Z * Z) : list Action :=
  match rest with
  | [] => []
  | c :: rest' =>
      let pos' := clamp (maxTAndE p) (Generator.applyCommand c pos) in
      (if voiceEnabled p
       then [if Qle_bool MIN_SPEECH_INTERVAL_S (commandInterval p)
             then PlayerPlay c (commandInterval p) (ttsManualSpeed p) (ttsSpeedMultiplier p)
             else PlayerStop]
       else [])
      ++ [SetTimeout gridUpdateTimer ((commandInterval p * 1000) / 2)%Q;
          SetTimeout nextCommandTimer (commandInterval p * 1000)%Q]
      ++ match rest' with
         | [] => [OnFinish pos'.1 pos'.2]
         | _ => cycles p rest' pos'
         end
  end.

(** A run of four commands, for examples. *)
Definition sampleRun : Props :=
  {| commands := [{| direction := Up; value := 5 |}; {| direction := Right; value := 10 |};
                  {| direction := Down; value := 5 |}; {| direction := Left; value := 10 |}];
     commandInterval := 1; voiceEnabled := true; ttsManualSpeed := false;
     ttsSpeedMultiplier := 2; maxTAndE := 25 |}.

(** [DrillResult]: the verdict shown for a reported position. *)
Definition isSuccess (finalTraverse finalElevation : Z) : bool :=
  (finalTraverse =? 0) && (finalElevation =? 0).

(** A run started on an empty sequence, as [App] starts it when the generator
    returned nothing. *)
Definition emptyRun : Props :=
  {| commands := []; commandInterval := 1; voiceEnabled := true;
     ttsManualSpeed := false; ttsSpeedMultiplier := 2; maxTAndE := 25 |}.

End Runner.

(* ------------------------------------------------------------------------- *)
(** ** components/TEGrid.tsx *)

Module Grid.
Local Open Scope Q_scope.

(** The percentages [(leftPos, topPos)] at which the reticle is drawn. *)
Definition reticle (traverse elevation maxTAndE : Z) : Q * Q :=
  let clampedTraverse := Z.max (- maxTAndE) (Z.min maxTAndE traverse) in
  let clampedElevation := Z.max (- maxTAndE) (Z.min maxTAndE elevation) in
  let leftPos := 50 + (inject_Z clampedTraverse / inject_Z maxTAndE) * 50 in
  let topPos := 50 - (inject_Z clampedElevation / inject_Z maxTAndE) * 50 in
  (leftPos, topPos).

End Grid.

(* ------------------------------------------------------------------------- *)
(** ** The string functions used on the click values

    [split], [trim] and [parseInt] of the host, on strings of ASCII
    characters.  [parseInt] yields [None] for NaN; the value of a long run of
    digits is kept exact. *)

Module Text.
Local Open Scope Z_scope.

(** The white space and line terminators of ASCII: TAB, LF, VT, FF, CR, SP.
    A character above 127 is never taken as white space here (the host has a
    few that are, such as the no-break space). *)
Definition isWhiteSpace (c : ascii) : bool :=
  let n := nat_of_ascii c in
  ((9 <=? n) && (n <=? 13))%nat || (n =? 32)%nat.

Fixpoint trimStart (s : string) : string :=
  match s with
  | EmptyString => EmptyString
  | String c s' => if isWhiteSpace c then trimStart s' else s
  end.

Fixpoint trimEnd (s : string) : string :=
  match s with
  | EmptyString => EmptyString
  | String c s' =>
      match trimEnd s' with
      | EmptyString => if isWhiteSpace c then EmptyString else String c EmptyString
      | t => String c t
      end
  end.

Definition trim (s : string) : string := trimEnd (trimStart s).

(** [s.split(sep)] for a separator of one character: the pieces between the
    separators, the empty string giving one empty piece. *)
Fixpoint split (sep : ascii) (s : string) : list string :=
  match s with
  | EmptyString => [EmptyString]
  | String c s' =>
      if bool_decide (c = sep) then EmptyString :: split sep s'
      else match split sep s' with
           | piece :: pieces => String c piece :: pieces
           | [] => [String c EmptyString]
           end
  end.

Definition digit (c : ascii) : option Z :=
  let n := nat_of_ascii c in
  if ((48 <=? n) && (n <=? 57))%nat then Some (Z.of_nat n - 48) else None.

(** The value of the longest prefix of decimal digits, from [acc]. *)
Fixpoint digitsValue (s : string) (acc : Z) : Z :=
  match s with
  | EmptyString => acc
  | String c s' =>
      match digit c with
      | Some d => digitsValue s' (10 * acc + d)
      | None => acc
      end
  end.

Definition parseDigits (s : string) : option Z :=
  match s with
  | EmptyString => None
  | String c _ =>
      match digit c with
      | Some _ => Some (digitsValue s 0)
      | None => None
      end
  end.

(** [parseInt(s, 10)]: leading white space is skipped, a sign is read, then
    the longest prefix of digits; NaN when there is no digit. *)
Definition parseInt (s : string) : option Z :=
  match trimStart s with
  | String "-"%char s' => option_map Z.opp (parseDigits s')
  | String "+"%char s' => parseDigits s'
  | s' => parseDigits s'
  end.



End Text.

(* ------------------------------------------------------------------------- *)
(** ** App.tsx and components/DrillConfiguration.tsx *)

Module App.
Local Open Scope Z_scope.

Inductive DrillState := configuring | running | finished.

Record DrillConfig := {
  numCommands : Z;
  clickValues : string;
  commandInterval : Q;
  voiceEnabled : bool;
  ttsSpeedMultiplier : Q;
  ttsManualSpeed : bool;
  maxTAndE : Z
}.

(** The state of [App]. *)
Record State := {
  drillState : DrillState;
  commands : list DrillCommand;
  finalTAndE : Z * Z;
  drillConfig : DrillConfig
}.

Definition initialConfig : DrillConfig :=
  {| numCommands := 10; clickValues := "5, 10"; commandInterval := 1;
     voiceEnabled := true; ttsSpeedMultiplier := 2; ttsManualSpeed := false;
     maxTAndE := 25 |}.

Definition initialState : State :=
  {| drillState := configuring; commands := []; finalTAndE := (0, 0);
     drillConfig := initialConfig |}.

(** [clickValues.split(',').map(v => parseInt(v.trim(), 10))
      .filter(v => !isNaN(v) && v > 0)] *)
Definition parsedValues (clickValues : string) : list Z :=
  omap (fun v =>
          match Text.parseInt (Text.trim v) with
          | Some n => if 0 <? n then Some n else None
          | None => None
          end)
       (Text.split ","%char clickValues).

(** What the handlers act on besides the state of [App]: the player with the
    host, and the lines of [console.error]. *)
Record World := {
  player : Speech.CommandPlayer * Speech.Browser;
  consoleErrors : list string
}.

Definition handleStartDrill (a : State) (w : World) : Rand.M (State * World) :=
  let config := drillConfig a in
  let parsed := parsedValues (clickValues config) in
  if (0 <? length parsed)%nat then
    let player' :=
      if voiceEnabled config
      then (Speech.preload parsed (player w).1, (player w).2)
      else player w in
    let* out := Generator.generateDrill (numCommands config) parsed (maxTAndE config) in
    Rand.ret
      ({| drillState := running; commands := Generator.drill out;
          finalTAndE := finalTAndE a; drillConfig := config |},
       {| player := player';
          consoleErrors := consoleErrors w ++ Generator.errors out |})
  else Rand.ret (a, w).

Definition handleFinishDrill (finalTraverse finalElevation : Z) (a : State) : State :=
  {| drillState := finished; commands := commands a;
     finalTAndE := (finalTraverse, finalElevation); drillConfig := drillConfig a |}.

Definition handleReset (a : State) (w : World) : State * World :=
  ({| drillState := configuring; commands := []; finalTAndE := finalTAndE a;
      drillConfig := drillConfig a |},
   {| player := Speech.stop (player w); consoleErrors := consoleErrors w |}).

(** The properties that [App] hands to [DrillRunner] while running. *)
Definition runnerProps (a : State) : Runner.Props :=
  {| Runner.commands := commands a;
     Runner.commandInterval := commandInterval (drillConfig a);
     Runner.voiceEnabled := voiceEnabled (drillConfig a);
     Runner.ttsManualSpeed := ttsManualSpeed (drillConfig a);
     Runner.ttsSpeedMultiplier := ttsSpeedMultiplier (drillConfig a);
     Runner.maxTAndE := maxTAndE (drillConfig a) |}.

(** [handleSubmit] of the configuration form: the error it shows, or [None]
    when it calls [onStartDrill]. *)
Definition handleSubmit (config : DrillConfig) : option string :=
  let parsed := parsedValues (clickValues config) in
  if (length parsed =? 0)%nat
  then Some "Please enter at least one valid, positive number for click values."
  else if numCommands config <? 2
  then Some "Number of commands must be at least 2."
  else if maxTAndE config <? 5
  then Some "Max T&E must be at least 5."
  else if existsb (fun v => v >? maxTAndE config) parsed
  then Some "Click values cannot be greater than the Max T&E."
  else if Qle_bool (commandInterval config) 0
  then Some "Command interval must be a positive number."
  else None.

(** The rate shown in the form. *)
Definition displayedSpeed (config : DrillConfig) : Q :=
  if ttsManualSpeed config then ttsSpeedMultiplier config
  else Speech.calculateAutoSpeed (commandInterval config).

(** The player calls of a trace of the runner, made on the player. *)
Definition perform (s : Speech.CommandPlayer * Speech.Browser) (a : Runner.Action)
    : Speech.CommandPlayer * Speech.Browser :=
  match a with
  | Runner.PlayerPlay c interval manualSpeed speed =>
      Speech.play c interval manualSpeed speed s
  | Runner.PlayerStop => Speech.stop s
  | _ => s
  end.

(** The world at the start: a fresh player on a supported platform, nothing
    spoken, nothing logged. *)
Definition initialWorld : World :=
  {| player := (Speech.newCommandPlayer true,
                {| Speech.synthCalls := []; Speech.warnings := [] |});
     consoleErrors := [] |}.

(** The cues of the given values are in the cache, on a supported platform. *)
Definition cuesReady (values : list Z) (s : Speech.CommandPlayer * Speech.Browser) : Prop :=
  Speech.isSupported s.1 = true ->
  forall d v, v ∈ values ->
    is_Some (Speech.utteranceCache s.1
               !! Speech.commandToKey {| direction := d; value := v |}).

End App.

(* ========================================================================= *)
(** * Properties *)

(* ------------------------------------------------------------------------- *)
(** ** The source of draws *)

Section RandFacts.
Import Rand.

Lemma Math_random_range (g : Rng) : ((Math_random g).1 < RES)%N.
Proof. unfold Math_random; simpl. apply N.mod_lt. discriminate. Qed.

(** [Math.floor(Math.random() * n)] is an index of an array of length [n]. *)
Lemma floor_scaled_lt (r : N) (n : nat) :
  (r < RES)%N -> (0 < n)%nat -> (floor_scaled r n < n)%nat.
Proof.
  intros Hr Hn. unfold floor_scaled.
  assert (H : (r * N.of_nat n / RES < N.of_nat n)%N).
  { apply N.Div0.div_lt_upper_bound. nia. }
  lia.
Qed.

Lemma floor_scaled_one (r : N) : (r < RES)%N -> floor_scaled r 1 = 0%nat.
Proof. intros Hr. pose proof (floor_scaled_lt r 1 Hr). lia. Qed.

End RandFacts.

(* ------------------------------------------------------------------------- *)
(** ** The generator *)

Section GeneratorFacts.
Import Rand Generator.
Local Open Scope Z_scope.

(** *** isMoveValid *)

Lemma isMoveValid_within (c : DrillCommand) (pos : Z * Z) (maxTAndE : Z) :
  0 <= value c ->
  withinBound maxTAndE pos ->
  isMoveValid c pos.1 pos.2 maxTAndE = true ->
  withinBound maxTAndE (applyCommand c pos).
Proof.
  destruct pos as [t e], c as [d v]; unfold withinBound, isMoveValid, applyCommand.
  simpl. intros Hv [Ht He] Hvalid. destruct d; simpl; lia.
Qed.

(** *** The pool of step 3 *)

Lemma validMoveIndices_spec (avail : list DrillCommand) (t e m : Z) (i : nat) :
  In i (validMoveIndices avail t e m) <->
  exists c, avail !! i = Some c /\ isMoveValid c t e m = true.
Proof.
  unfold validMoveIndices. rewrite filter_In, in_seq. split.
  - intros [_ H]. destruct (avail !! i) as [c|] eqn:E; [eauto | discriminate].
  - intros (c & E & H). rewrite E. split; [|assumption].
    apply lookup_lt_Some in E. lia.
Qed.

(** The two lookups of an iteration of the pick loop succeed. *)
Lemma valid_pick_in_range (valid : list nat) (g : Rng) :
  valid <> [] ->
  exists i, valid !! floor_scaled (Math_random g).1 (length valid) = Some i.
Proof.
  intros Hne. apply lookup_lt_is_Some_2.
  apply floor_scaled_lt; [apply Math_random_range|].
  destruct valid; [congruence | simpl; lia].
Qed.

Lemma validMoveIndices_lookup (avail : list DrillCommand) (t e m : Z) (k i : nat) :
  validMoveIndices avail t e m !! k = Some i ->
  exists c, avail !! i = Some c /\ isMoveValid c t e m = true.
Proof.
  intros H. apply validMoveIndices_spec, list_elem_of_In.
  eapply list_elem_of_lookup_2; eauto.
Qed.

(** The position reached from [pos] by a list of commands. *)
Lemma positionAfter_from_cons (c : DrillCommand) (cmds : list DrillCommand) (pos : Z * Z) :
  fold_left (fun p c => applyCommand c p) (c :: cmds) pos
  = fold_left (fun p c => applyCommand c p) cmds (applyCommand c pos).
Proof. reflexivity. Qed.

(** What the pick loop returns is drawn from the pool without repetition. *)
Lemma pickLoop_sub (fuel : nat) : forall avail pos m g,
  exists leftover, avail ≡ₚ (pickLoop fuel avail pos m g).1 ++ leftover.
Proof.
  induction fuel as [|fuel IH]; intros avail pos m g; simpl.
  - exists avail. reflexivity.
  - destruct avail as [|c0 avail0] eqn:Ea; [exists []; reflexivity|].
    rewrite <- Ea. clear Ea c0 avail0.
    destruct (validMoveIndices avail pos.1 pos.2 m) as [|i0 valid0] eqn:Ev;
      [exists avail; reflexivity|].
    rewrite <- Ev. unfold bind at 1.
    destruct (Math_random g) as [r g1] eqn:Er.
    destruct (validMoveIndices avail pos.1 pos.2 m !! _) as [i|] eqn:Ei;
      [|exists avail; reflexivity].
    destruct (avail !! i) as [c|] eqn:Ec; [|exists avail; reflexivity].
    unfold bind, ret.
    destruct (IH (delete i avail) (applyCommand c pos) m g1) as [left Hl].
    destruct (pickLoop fuel (delete i avail) (applyCommand c pos) m g1) as [rest g2].
    simpl in *. exists left.
    rewrite (delete_Permutation avail i c Ec). constructor. exact Hl.
Qed.

(** Every prefix of what the pick loop returns stays inside the bound, when
    the magnitudes in the pool are not negative. *)
Lemma pickLoop_within (fuel : nat) : forall avail pos m g,
  Forall (fun c => 0 <= value c) avail ->
  withinBound m pos ->
  forall k,
    withinBound m
      (fold_left (fun p c => applyCommand c p)
         (firstn k (pickLoop fuel avail pos m g).1) pos).
Proof.
  induction fuel as [|fuel IH]; intros avail pos m g Hpos Hin k; simpl.
  - rewrite firstn_nil. exact Hin.
  - destruct avail as [|c0 avail0] eqn:Ea; [rewrite firstn_nil; exact Hin|].
    rewrite <- Ea in *. clear Ea c0 avail0.
    destruct (validMoveIndices avail pos.1 pos.2 m) as [|i0 valid0] eqn:Ev;
      [rewrite firstn_nil; exact Hin|].
    rewrite <- Ev. unfold bind at 1.
    destruct (Math_random g) as [r g1] eqn:Er.
    destruct (validMoveIndices avail pos.1 pos.2 m !! _) as [i|] eqn:Ei;
      [|rewrite firstn_nil; exact Hin].
    destruct (validMoveIndices_lookup _ _ _ _ _ _ Ei) as (c & Ec & Hvalid).
    rewrite Ec. unfold bind, ret.
    specialize (IH (delete i avail) (applyCommand c pos) m g1).
    destruct (pickLoop fuel (delete i avail) (applyCommand c pos) m g1) as [rest g2].
    simpl in *. destruct k as [|k]; [exact Hin|]. simpl.
    apply IH.
    + apply Forall_delete. exact Hpos.
    + apply isMoveValid_within; auto.
      rewrite Forall_forall in Hpos. apply Hpos.
      eapply list_elem_of_lookup_2; eauto.
Qed.

(** The fuel of [pickLoop] is not a limit: from the length of the pool on,
    more fuel changes nothing, so the loop always ends as the [while] does,
    on an empty pool or on a pool without a valid move. *)
Lemma pickLoop_fuel (fuel : nat) : forall avail pos m g,
  (length avail <= fuel)%nat ->
  pickLoop fuel avail pos m g = pickLoop (length avail) avail pos m g.
Proof.
  induction fuel as [|fuel IH]; intros avail pos m g Hlen.
  - destruct avail; [reflexivity | simpl in Hlen; lia].
  - destruct avail as [|c0 avail0]; [reflexivity|].
    change (length (c0 :: avail0)) with (S (length avail0)) in *.
    cbn [pickLoop].
    assert (El : length (c0 :: avail0) = S (length avail0)) by reflexivity.
    revert El. generalize (c0 :: avail0). intros avail El.
    destruct (validMoveIndices avail pos.1 pos.2 m) as [|i0 valid0] eqn:Ev;
      [reflexivity|].
    rewrite <- Ev. unfold bind at 1 3.
    destruct (Math_random g) as [r g1].
    destruct (validMoveIndices avail pos.1 pos.2 m !! _) as [i|] eqn:Ei; [|reflexivity].
    destruct (validMoveIndices_lookup _ _ _ _ _ _ Ei) as (c & Ec & _).
    rewrite Ec. unfold bind.
    assert (Hi : (i < length avail)%nat) by (eapply lookup_lt_Some; eauto).
    assert (Hd : length (delete i avail) = length avail0).
    { rewrite length_delete by eauto. lia. }
    rewrite (IH (delete i avail)) by lia. rewrite Hd. reflexivity.
Qed.

(** With enough room for every command of the pool, whatever the order, the
    pick loop is never stuck and empties the pool. *)
Lemma pickLoop_complete (v : Z) (fuel : nat) : forall avail pos m g,
  length avail = fuel ->
  Forall (fun c => 0 <= value c <= v) avail ->
  Z.abs pos.1 + v * Z.of_nat (length avail) <= m ->
  Z.abs pos.2 + v * Z.of_nat (length avail) <= m ->
  length (pickLoop fuel avail pos m g).1 = length avail.
Proof.
  induction fuel as [|fuel IH]; intros avail pos m g Hlen Hval Ht He; simpl.
  - lia.
  - destruct avail as [|c0 avail0] eqn:Ea; [discriminate|].
    rewrite <- Ea in *. clear Ea.
    assert (Hall : forall c, c ∈ avail -> isMoveValid c pos.1 pos.2 m = true).
    { intros c Hc. rewrite Forall_forall in Hval. specialize (Hval c Hc).
      assert (Hroom : v <= v * Z.of_nat (length avail)) by nia.
      unfold isMoveValid.
      destruct (direction c);
        [apply Z.leb_le | apply Z.geb_le | apply Z.geb_le | apply Z.leb_le]; lia. }
    destruct (validMoveIndices avail pos.1 pos.2 m) as [|i0 valid0] eqn:Ev.
    { exfalso. assert (Hin : In 0%nat (validMoveIndices avail pos.1 pos.2 m)).
      { apply validMoveIndices_spec. destruct avail as [|c1 ?]; [discriminate|].
        exists c1. split; [reflexivity|]. apply Hall. left. }
      rewrite Ev in Hin. destruct Hin. }
    rewrite <- Ev. unfold bind at 1.
    destruct (valid_pick_in_range (validMoveIndices avail pos.1 pos.2 m) g) as [i Ei].
    { rewrite Ev. discriminate. }
    destruct (Math_random g) as [r g1] eqn:Er. simpl in Ei. rewrite Ei.
    destruct (validMoveIndices_lookup _ _ _ _ _ _ Ei) as (c & Ec & _).
    rewrite Ec. unfold bind, ret.
    specialize (IH (delete i avail) (applyCommand c pos) m g1).
    destruct (pickLoop fuel (delete i avail) (applyCommand c pos) m g1) as [rest g2].
    simpl in *.
    assert (Hi : (i < length avail)%nat) by (eapply lookup_lt_Some; eauto).
    assert (Hd : length (delete i avail) = fuel) by (rewrite length_delete; eauto; lia).
    assert (Hc : 0 <= value c <= v).
    { rewrite Forall_forall in Hval. apply Hval. eapply list_elem_of_lookup_2; eauto. }
    rewrite IH; try lia.
    + apply Forall_delete. exact Hval.
    + rewrite Hd. destruct pos as [t e]; unfold applyCommand; simpl in *.
      destruct (direction c); simpl; lia.
    + rewrite Hd. destruct pos as [t e]; unfold applyCommand; simpl in *.
      destruct (direction c); simpl; lia.
Qed.

(** *** Steps 1 and 2 *)

Lemma positiveLoop_length (n : nat) (cv : list Z) : forall g,
  length (positiveLoop n cv g).1 = n.
Proof.
  induction n as [|n IH]; intros g; simpl; [reflexivity|].
  unfold bind, ret; simpl.
  specialize (IH (fun i => g (S (S i)))).
  destruct (positiveLoop n cv _) as [rest g']. simpl in *. lia.
Qed.

(** A positive command goes up or right, by a magnitude of [clickValues]. *)
Lemma positiveLoop_shape (n : nat) (cv : list Z) : forall g,
  cv <> [] ->
  Forall (fun c => (direction c = Up \/ direction c = Right) /\ value c ∈ cv)
    (positiveLoop n cv g).1.
Proof.
  induction n as [|n IH]; intros g Hne; simpl; [constructor|].
  unfold bind, ret; simpl.
  specialize (IH (fun i => g (S (S i))) Hne).
  destruct (positiveLoop n cv _) as [rest g']. simpl in *.
  constructor; [|exact IH]. simpl. split.
  - destruct (gt_half _); auto.
  - apply list_elem_of_In, nth_In.
    apply floor_scaled_lt; [apply N.mod_lt; discriminate|].
    destruct cv; [congruence | simpl; lia].
Qed.

Lemma totalCommands_even (n : Z) : 2 * halfCommands n = totalCommands n.
Proof.
  unfold halfCommands, totalCommands.
  destruct (Z.eqb_spec (Z.rem n 2) 0) as [E|E];
    Z.to_euclidean_division_equations; lia.
Qed.

(** *** Signed sums *)

Lemma sumZ_app (l1 l2 : list Z) : sumZ (l1 ++ l2) = sumZ l1 + sumZ l2.
Proof. induction l1; simpl; lia. Qed.

Lemma sumZ_Permutation (l1 l2 : list Z) : l1 ≡ₚ l2 -> sumZ l1 = sumZ l2.
Proof. induction 1; simpl; lia. Qed.

Lemma elevationSum_Permutation (l1 l2 : list DrillCommand) :
  l1 ≡ₚ l2 -> elevationSum l1 = elevationSum l2.
Proof. intros H. apply sumZ_Permutation, Permutation_map, H. Qed.

Lemma traverseSum_Permutation (l1 l2 : list DrillCommand) :
  l1 ≡ₚ l2 -> traverseSum l1 = traverseSum l2.
Proof. intros H. apply sumZ_Permutation, Permutation_map, H. Qed.

(** The pool of step 2 is balanced on both axes. *)
Lemma balanced_pool (positives : list DrillCommand) :
  Forall (fun c => direction c = Up \/ direction c = Right) positives ->
  elevationSum (positives ++ map opposite positives) = 0 /\
  traverseSum (positives ++ map opposite positives) = 0.
Proof.
  unfold elevationSum, traverseSum. rewrite !map_app, !sumZ_app.
  induction 1 as [|c l Hc _ IH]; simpl; [lia|].
  destruct c as [d v]. unfold elevationDelta, traverseDelta, opposite in *.
  simpl in *. destruct Hc as [-> | ->]; lia.
Qed.

Lemma elevationSum_cons (c : DrillCommand) (l : list DrillCommand) :
  elevationSum (c :: l) = elevationDelta c + elevationSum l.
Proof. reflexivity. Qed.

Lemma traverseSum_cons (c : DrillCommand) (l : list DrillCommand) :
  traverseSum (c :: l) = traverseDelta c + traverseSum l.
Proof. reflexivity. Qed.

(** The position after a list of commands is the pair of its signed sums. *)
Lemma positionAfter_sums (cmds : list DrillCommand) :
  positionAfter cmds = (traverseSum cmds, elevationSum cmds).
Proof.
  unfold positionAfter.
  assert (H : forall t e,
    fold_left (fun p c => applyCommand c p) cmds (t, e)
    = (t + traverseSum cmds, e + elevationSum cmds)).
  { induction cmds as [|c l IH]; intros t e.
    - simpl. f_equal; unfold traverseSum, elevationSum; simpl; lia.
    - rewrite positionAfter_from_cons, elevationSum_cons, traverseSum_cons.
      destruct c as [[] v]; unfold applyCommand at 2;
        unfold elevationDelta, traverseDelta; cbn [direction value];
        rewrite IH; f_equal; lia. }
  rewrite H. f_equal.
Qed.

(** *** One attempt *)

Lemma attemptOnce_success (n : Z) (cv : list Z) (m : Z) (g g' : Rng)
    (final : list DrillCommand) :
  attemptOnce n cv m g = (Some final, g') ->
  exists positives g1,
    positiveLoop (Z.to_nat (halfCommands n)) cv g = (positives, g1) /\
    final = (pickLoop (length (positives ++ map opposite positives))
               (positives ++ map opposite positives) (0, 0) m g1).1 /\
    Z.of_nat (length final) = totalCommands n.
Proof.
  unfold attemptOnce, bind, ret. intros H.
  destruct (positiveLoop _ cv g) as [positives g1] eqn:Ep.
  destruct (pickLoop _ _ _ m g1) as [fin g2] eqn:El.
  destruct (Z.of_nat (length fin) =? totalCommands n) eqn:Et; [|discriminate].
  apply Z.eqb_eq in Et.
  inversion H; subst. exists positives, g1.
  split; [reflexivity|]. split; [rewrite El; reflexivity | exact Et].
Qed.

(** A successful attempt returns the whole pool, reordered. *)
Lemma attemptOnce_Permutation (n : Z) (cv : list Z) (m : Z) (g g' : Rng)
    (final : list DrillCommand) :
  attemptOnce n cv m g = (Some final, g') ->
  exists positives,
    positives = (positiveLoop (Z.to_nat (halfCommands n)) cv g).1 /\
    positives ++ map opposite positives ≡ₚ final.
Proof.
  intros H. destruct (attemptOnce_success _ _ _ _ _ _ H) as (ps & g1 & Ep & Ef & Hlen).
  exists ps. split; [rewrite Ep; reflexivity|].
  destruct (pickLoop_sub (length (ps ++ map opposite ps)) (ps ++ map opposite ps)
              (0, 0) m g1) as [left Hl].
  rewrite <- Ef in Hl.
  assert (Hps : length ps = Z.to_nat (halfCommands n)).
  { pose proof (positiveLoop_length (Z.to_nat (halfCommands n)) cv g) as L.
    rewrite Ep in L. exact L. }
  assert (Hleft : left = []).
  { apply Permutation_length in Hl.
    rewrite !length_app, length_map in Hl.
    pose proof (totalCommands_even n). destruct left; [reflexivity|simpl in Hl; lia]. }
  subst left. rewrite app_nil_r in Hl. exact Hl.
Qed.

Lemma attemptOnce_within (n : Z) (cv : list Z) (m : Z) (g g' : Rng)
    (final : list DrillCommand) :
  attemptOnce n cv m g = (Some final, g') ->
  cv <> [] ->
  Forall (fun v => 0 <= v) cv ->
  0 <= m ->
  forall k, withinBound m (positionAfter (firstn k final)).
Proof.
  intros H Hne Hcv Hm k.
  destruct (attemptOnce_success _ _ _ _ _ _ H) as (ps & g1 & Ep & Ef & _).
  subst final. unfold positionAfter. apply pickLoop_within.
  - pose proof (positiveLoop_shape (Z.to_nat (halfCommands n)) cv g Hne) as Hs.
    rewrite Ep in Hs. simpl in Hs. rewrite Forall_forall in Hcv.
    apply Forall_app. split.
    + eapply Forall_impl; [exact Hs|]. intros c [_ Hc]. apply Hcv, Hc.
    + apply Forall_map. eapply Forall_impl; [exact Hs|].
      intros c [_ Hc]. simpl. apply Hcv, Hc.
  - unfold withinBound; simpl; lia.
Qed.

(** *** The attempt loop and the guard *)

Lemma attemptLoop_success (remaining : nat) : forall attempt n cv m g out g',
  attemptLoop remaining attempt n cv m g = (out, g') ->
  drill out <> [] ->
  exists g1 g2, attemptOnce n cv m g1 = (Some (drill out), g2).
Proof.
  induction remaining as [|remaining IH]; intros attempt n cv m g out g' H Hne; simpl in H.
  - inversion H; subst. simpl in Hne. congruence.
  - unfold bind in H. destruct (attemptOnce n cv m g) as [[final|] g1] eqn:Ea.
    + inversion H; subst. simpl. eauto.
    + eapply IH; eauto.
Qed.

Lemma generateDrill_guard (n : Z) (cv : list Z) (m : Z) (g : Rng) :
  drill (generateDrill n cv m g).1 <> [] ->
  cv <> [] /\ Forall (fun v => v <= m) cv.
Proof.
  unfold generateDrill. intros H.
  destruct (_ || _) eqn:E; [simpl in H; congruence|].
  apply orb_false_iff in E as [E1 E2]. split.
  - destruct cv; [discriminate|congruence].
  - apply Forall_forall. intros v Hv.
    destruct (Z.leb_spec v m) as [|Hgt]; [assumption|].
    assert (Hex : existsb (fun v => v >? m) cv = true).
    { apply existsb_exists. exists v. split; [apply list_elem_of_In, Hv | lia]. }
    congruence.
Qed.

Lemma generateDrill_success (n : Z) (cv : list Z) (m : Z) (g : Rng) :
  drill (generateDrill n cv m g).1 <> [] ->
  exists g1 g2, attemptOnce n cv m g1 = (Some (drill (generateDrill n cv m g).1), g2).
Proof.
  intros H. pose proof H as H'. revert H'.
  unfold generateDrill. destruct (_ || _) eqn:E; [simpl; congruence|].
  intros H'.
  destruct (attemptLoop MAX_GENERATION_ATTEMPTS 0 n cv m g) as [out g'] eqn:Ea.
  eapply attemptLoop_success; eauto.
Qed.

Lemma generateDrill_first_attempt (n : Z) (cv : list Z) (m : Z) (g g' : Rng)
    (final : list DrillCommand) :
  cv <> [] ->
  Forall (fun v => v <= m) cv ->
  attemptOnce n cv m g = (Some final, g') ->
  generateDrill n cv m g = ({| drill := final; attempts := 1; errors := [] |}, g').
Proof.
  intros Hne Hle Ha. unfold generateDrill.
  assert (E1 : (length cv =? 0)%nat = false) by (destruct cv; [congruence|reflexivity]).
  assert (E2 : existsb (fun v => v >? m) cv = false).
  { apply not_true_is_false. intros Hex. apply existsb_exists in Hex as (v & Hv & Hgt).
    rewrite Forall_forall in Hle. apply list_elem_of_In, Hle in Hv. lia. }
  rewrite E1, E2. simpl. unfold bind. rewrite Ha. reflexivity.
Qed.

Lemma totalCommands_round_up (n : Z) :
  totalCommands n = if Z.even n then n else n + 1.
Proof.
  unfold totalCommands.
  destruct (Z.even n) eqn:Ev.
  - apply Z.even_spec in Ev as [k ->].
    destruct (Z.eqb_spec (Z.rem (2 * k) 2) 0) as [E|E]; [reflexivity|].
    exfalso. apply E. Z.to_euclidean_division_equations; lia.
  - assert (Ho : Z.odd n = true) by (rewrite <- Z.negb_even, Ev; reflexivity).
    apply Z.odd_spec in Ho as [k ->].
    destruct (Z.eqb_spec (Z.rem (2 * k + 1) 2) 0) as [E|E]; [|reflexivity].
    exfalso. revert E. Z.to_euclidean_division_equations; lia.
Qed.

(** *** The claims on the generator *)

(** C1 (bound invariant).  For a configuration of the data model (click values
    are magnitudes, hence not negative) on which [generateDrill] returns a
    non-empty sequence, every prefix of the sequence, applied as signed deltas
    from (0,0), keeps traverse and elevation within [-maxTAndE, maxTAndE]. *)
Theorem generateDrill_prefix_within_bound (numCommands : Z) (clickValues : list Z)
    (maxTAndE : Z) (g : Rng) :
  Forall (fun v => 0 <= v) clickValues ->
  drill (generateDrill numCommands clickValues maxTAndE g).1 <> [] ->
  forall k,
    withinBound maxTAndE
      (positionAfter (firstn k (drill (generateDrill numCommands clickValues maxTAndE g).1))).
Proof.
  intros Hpos Hne k.
  destruct (generateDrill_guard _ _ _ _ Hne) as [Hcv Hle].
  destruct (generateDrill_success _ _ _ _ Hne) as (g1 & g2 & Ha).
  eapply attemptOnce_within; eauto.
  destruct clickValues as [|v cv]; [congruence|].
  inversion Hpos; inversion Hle; subst. lia.
Qed.

(** C2 (zero-sum invariant).  On a non-empty output the signed sum of the
    elevation magnitudes (Up positive, Down negative) is 0 and the signed sum
    of the traverse magnitudes (Right positive, Left negative) is 0. *)
Theorem generateDrill_zero_sum (numCommands : Z) (clickValues : list Z)
    (maxTAndE : Z) (g : Rng) :
  drill (generateDrill numCommands clickValues maxTAndE g).1 <> [] ->
  elevationSum (drill (generateDrill numCommands clickValues maxTAndE g).1) = 0 /\
  traverseSum (drill (generateDrill numCommands clickValues maxTAndE g).1) = 0.
Proof.
  intros Hne.
  destruct (generateDrill_guard _ _ _ _ Hne) as [Hcv _].
  destruct (generateDrill_success _ _ _ _ Hne) as (g1 & g2 & Ha).
  destruct (attemptOnce_Permutation _ _ _ _ _ _ Ha) as (ps & Eps & Hperm).
  rewrite <- (elevationSum_Permutation _ _ Hperm), <- (traverseSum_Permutation _ _ Hperm).
  apply balanced_pool. subst ps.
  eapply Forall_impl; [apply positiveLoop_shape, Hcv|]. intros c [Hd _]. exact Hd.
Qed.

(** C3 (length invariant).  The length of a non-empty output is [numCommands]
    rounded up to the nearest even integer: [numCommands] itself when even,
    [numCommands + 1] when odd. *)
Theorem generateDrill_length (numCommands : Z) (clickValues : list Z)
    (maxTAndE : Z) (g : Rng) :
  drill (generateDrill numCommands clickValues maxTAndE g).1 <> [] ->
  Z.of_nat (length (drill (generateDrill numCommands clickValues maxTAndE g).1))
  = (if Z.even numCommands then numCommands else numCommands + 1).
Proof.
  intros Hne.
  destruct (generateDrill_success _ _ _ _ Hne) as (g1 & g2 & Ha).
  destruct (attemptOnce_success _ _ _ _ _ _ Ha) as (_ & _ & _ & _ & Hlen).
  rewrite Hlen. apply totalCommands_round_up.
Qed.

(** C4 (infeasibility).  When [clickValues] is empty or holds a value strictly
    greater than [maxTAndE], [generateDrill] returns the empty sequence at
    once: no iteration of the attempt loop is entered, no draw is consumed
    and nothing is logged. *)
Theorem generateDrill_infeasible (numCommands : Z) (clickValues : list Z)
    (maxTAndE : Z) (g : Rng) :
  clickValues = [] \/ Exists (fun v => v > maxTAndE) clickValues ->
  generateDrill numCommands clickValues maxTAndE g
  = ({| drill := []; attempts := 0; errors := [] |}, g).
Proof.
  intros H. unfold generateDrill.
  assert (E : (length clickValues =? 0)%nat
              || existsb (fun v => v >? maxTAndE) clickValues = true).
  { destruct H as [-> | Hex]; [reflexivity|].
    apply orb_true_iff. right. apply existsb_exists.
    apply Exists_exists in Hex as (v & Hv & Hgt).
    exists v. split; [apply list_elem_of_In, Hv | lia]. }
  rewrite E. reflexivity.
Qed.

(** C5 (validator).  [isMoveValid] is a function of the position, the command
    and the bound alone, defined on all of them, and it is true exactly when:
    Up, elevation + magnitude <= bound; Down, elevation - magnitude >= -bound;
    Left, traverse - magnitude >= -bound; Right, traverse + magnitude <= bound.
    From traverse 20, elevation 0, with bound 25, Right 10 is invalid and
    Right 5 is valid. *)
Theorem isMoveValid_spec :
  (forall traverse elevation magnitude bound,
     (isMoveValid {| direction := Up; value := magnitude |} traverse elevation bound = true
        <-> elevation + magnitude <= bound) /\
     (isMoveValid {| direction := Down; value := magnitude |} traverse elevation bound = true
        <-> elevation - magnitude >= - bound) /\
     (isMoveValid {| direction := Left; value := magnitude |} traverse elevation bound = true
        <-> traverse - magnitude >= - bound) /\
     (isMoveValid {| direction := Right; value := magnitude |} traverse elevation bound = true
        <-> traverse + magnitude <= bound)) /\
  (forall command traverse elevation bound,
     exists b, isMoveValid command traverse elevation bound = b /\
       forall b', isMoveValid command traverse elevation bound = b' -> b' = b) /\
  isMoveValid {| direction := Right; value := 10 |} 20 0 25 = false /\
  isMoveValid {| direction := Right; value := 5 |} 20 0 25 = true.
Proof.
  split; [|split; [|split; reflexivity]].
  - intros t e v m. unfold isMoveValid; simpl.
    rewrite !Z.leb_le, !Z.geb_le. repeat split; lia.
  - intros c t e m. eexists. split; [reflexivity|]. intros b' <-. reflexivity.
Qed.

(** C6 (scenario).  With numCommands = 4, clickValues = {5} and maxTAndE = 25,
    whatever the draws, [generateDrill] returns exactly 4 commands, each of
    magnitude 5, with net displacement (0,0) and every prefix position within
    25 on both axes; the output is never empty (the first attempt succeeds). *)
Theorem generateDrill_scenario_4_5_25 (g : Rng) :
  let out := (generateDrill 4 [5] 25 g).1 in
  length (drill out) = 4%nat /\
  Forall (fun c => value c = 5) (drill out) /\
  positionAfter (drill out) = (0, 0) /\
  (forall k, withinBound 25 (positionAfter (firstn k (drill out)))) /\
  drill out <> [] /\
  attempts out = 1%nat.
Proof.
  assert (Hne : [5] <> @nil Z) by discriminate.
  assert (Hle : Forall (fun v => v <= 25) [5]) by (repeat constructor; lia).
  assert (Hshape := positiveLoop_shape (Z.to_nat (halfCommands 4)) [5] g Hne).
  assert (Hplen := positiveLoop_length (Z.to_nat (halfCommands 4)) [5] g).
  assert (Ha : exists final g', attemptOnce 4 [5] 25 g = (Some final, g') /\
                 length final = 4%nat).
  { unfold attemptOnce, bind, ret.
    destruct (positiveLoop (Z.to_nat (halfCommands 4)) [5] g) as [ps g1].
    simpl in Hshape, Hplen.
    assert (Hpool : length (ps ++ map opposite ps) = 4%nat).
    { rewrite length_app, length_map, Hplen. reflexivity. }
    pose proof (pickLoop_complete 5 (length (ps ++ map opposite ps))
                  (ps ++ map opposite ps) (0, 0) 25 g1 eq_refl) as Hc.
    destruct (pickLoop _ _ _ 25 g1) as [final g2]. simpl in Hc.
    assert (Hf : length final = 4%nat).
    { rewrite Hc; [exact Hpool | | rewrite Hpool; simpl; lia ..].
      apply Forall_app. split; [|apply Forall_map];
        (eapply Forall_impl; [exact Hshape|]); intros c [_ Hc5]; simpl;
        apply list_elem_of_singleton in Hc5; lia. }
    exists final, g2. split; [rewrite Hf; reflexivity | exact Hf]. }
  destruct Ha as (final & g' & Ha & Hlen).
  rewrite (generateDrill_first_attempt _ _ _ _ _ _ Hne Hle Ha). simpl.
  destruct (attemptOnce_Permutation _ _ _ _ _ _ Ha) as (ps & Eps & Hperm).
  assert (Hdir : Forall (fun c => direction c = Up \/ direction c = Right) ps).
  { subst ps. eapply Forall_impl; [exact Hshape|]. intros c [Hd _]. exact Hd. }
  destruct (balanced_pool ps Hdir) as [He Ht].
  split; [|split; [|split; [|split; [|split]]]].
  - exact Hlen.
  - rewrite <- Hperm. subst ps.
    apply Forall_app. split; [|apply Forall_map];
      (eapply Forall_impl; [exact Hshape|]); intros c [_ Hc5]; simpl;
      apply list_elem_of_singleton in Hc5; lia.
  - rewrite positionAfter_sums, <- (elevationSum_Permutation _ _ Hperm),
      <- (traverseSum_Permutation _ _ Hperm), He, Ht. reflexivity.
  - intros k. eapply attemptOnce_within; eauto; [repeat constructor|]; lia.
  - destruct final; [discriminate Hlen|discriminate].
  - reflexivity.
Qed.

End GeneratorFacts.

(** *** The generator run on concrete configurations *)

Section GeneratorExamples.
Import Rand Generator.
Local Open Scope Z_scope.

Lemma generateDrill_prefix_within_bound_witness :
  Forall (fun v => 0 <= v) [5; 10] /\
  drill (generateDrill 4 [5; 10] 10 sample_rng).1 <> [] /\
  forall k,
    withinBound 10
      (positionAfter (firstn k (drill (generateDrill 4 [5; 10] 10 sample_rng).1))).
Proof.
  assert (H1 : Forall (fun v => 0 <= v) [5; 10]) by (repeat constructor; lia).
  assert (H2 : drill (generateDrill 4 [5; 10] 10 sample_rng).1 <> [])
    by (vm_compute; discriminate).
  split; [exact H1|]. split; [exact H2|].
  exact (generateDrill_prefix_within_bound 4 [5; 10] 10 sample_rng H1 H2).
Defined.

Lemma generateDrill_zero_sum_witness :
  drill (generateDrill 5 [5; 10] 25 sample_rng).1 <> [] /\
  elevationSum (drill (generateDrill 5 [5; 10] 25 sample_rng).1) = 0 /\
  traverseSum (drill (generateDrill 5 [5; 10] 25 sample_rng).1) = 0.
Proof.
  assert (H : drill (generateDrill 5 [5; 10] 25 sample_rng).1 <> [])
    by (vm_compute; discriminate).
  split; [exact H|].
  exact (generateDrill_zero_sum 5 [5; 10] 25 sample_rng H).
Defined.

Lemma generateDrill_length_witness :
  drill (generateDrill 5 [5; 10] 25 sample_rng).1 <> [] /\
  Z.of_nat (length (drill (generateDrill 5 [5; 10] 25 sample_rng).1)) = 6.
Proof.
  assert (H : drill (generateDrill 5 [5; 10] 25 sample_rng).1 <> [])
    by (vm_compute; discriminate).
  split; [exact H|].
  exact (generateDrill_length 5 [5; 10] 25 sample_rng H).
Defined.

Lemma generateDrill_infeasible_witness :
  Exists (fun v => v > 25) [5; 30] /\
  generateDrill 4 [5; 30] 25 sample_rng
  = ({| drill := []; attempts := 0; errors := [] |}, sample_rng).
Proof.
  assert (H : Exists (fun v => v > 25) [5; 30])
    by (apply Exists_cons_tl, Exists_cons_hd; lia).
  split; [exact H|].
  exact (generateDrill_infeasible 4 [5; 30] 25 sample_rng (or_intror H)).
Defined.

(** Magnitudes are not negative in the data model, and the bound invariant
    rests on it: a value below zero passes the guard, and a Left move by it
    goes right, past the bound that [isMoveValid] checks only on the left for
    this direction. *)
Remark negative_value_leaves_bound :
  firstn 1 (drill (generateDrill 4 [-30] 25 sample_rng).1)
    = [{| direction := Left; value := -30 |}] /\
  positionAfter (firstn 1 (drill (generateDrill 4 [-30] 25 sample_rng).1)) = (30, 0).
Proof. split; vm_compute; reflexivity. Qed.

End GeneratorExamples.

(* ------------------------------------------------------------------------- *)
(** ** The speech cue player *)

Section SpeechFacts.
Import Speech.
Local Open Scope Q_scope.

(** *** Rounding and the automatic rate *)

Lemma Qfloor_unique (x : Q) (z : Z) :
  inject_Z z <= x -> x < inject_Z z + 1 -> Qfloor x = z.
Proof.
  intros Hle Hlt.
  pose proof (Qfloor_le x) as H1. pose proof (Qlt_floor x) as H2.
  rewrite inject_Z_plus in H2. change (inject_Z 1) with 1 in H2.
  assert (A : (Qfloor x < z + 1)%Z).
  { rewrite Zlt_Qlt, inject_Z_plus. change (inject_Z 1) with 1. lra. }
  assert (B : (z < Qfloor x + 1)%Z).
  { rewrite Zlt_Qlt, inject_Z_plus. change (inject_Z 1) with 1. lra. }
  lia.
Qed.

(** [Math_round y] is the integer nearest to [y], halves going up. *)
Lemma Math_round_nearest (y : Q) (k : Z) :
  inject_Z k - (1 # 2) <= y -> y < inject_Z k + (1 # 2) -> Math_round y = k.
Proof. intros H1 H2. apply Qfloor_unique; lra. Qed.

Lemma calculateAutoSpeed_ge (interval : Q) :
  1 <= interval -> calculateAutoSpeed interval == 2.
Proof.
  intros H. unfold calculateAutoSpeed.
  apply Qle_bool_iff in H. rewrite H. reflexivity.
Qed.

Lemma calculateAutoSpeed_lt (interval : Q) (k : Z) :
  interval < 1 ->
  inject_Z k - (1 # 2) <= (1 - interval) * 10 < inject_Z k + (1 # 2) ->
  calculateAutoSpeed interval == 2 + inject_Z k * (3 # 10).
Proof.
  intros H [H1 H2]. unfold calculateAutoSpeed.
  destruct (Qle_bool 1 interval) eqn:E.
  - apply Qle_bool_iff in E. lra.
  - rewrite (Math_round_nearest _ k H1 H2). reflexivity.
Qed.

(** On a whole number of tenths of a second the nearest step count is the
    count of full steps: the code and the wording of the specification agree. *)
Lemma calculateAutoSpeed_tenths (j : Z) :
  calculateAutoSpeed (inject_Z j / 10) == spec_auto_rate (inject_Z j / 10).
Proof.
  unfold spec_auto_rate, calculateAutoSpeed.
  destruct (Qle_bool 1 (inject_Z j / 10)) eqn:E; [reflexivity|].
  assert (F : Qfloor ((1 - inject_Z j / 10) / (1 # 10)) = (10 - j)%Z).
  { apply Qfloor_unique; unfold Zminus; rewrite inject_Z_plus, inject_Z_opp;
      change (inject_Z 10) with 10; field_simplify; lra. }
  assert (R : Math_round ((1 - inject_Z j / 10) * 10) = (10 - j)%Z).
  { apply Math_round_nearest; unfold Zminus; rewrite inject_Z_plus, inject_Z_opp;
      change (inject_Z 10) with 10; field_simplify; lra. }
  rewrite F, R. reflexivity.
Qed.

Lemma clamp_range (r : Q) :
  1 # 2 <= Qmin 10 (Qmax (1 # 2) r) /\ Qmin 10 (Qmax (1 # 2) r) <= 10.
Proof.
  split.
  - apply Q.min_glb; [lra | apply Q.le_max_l].
  - apply Q.le_min_l.
Qed.

(** *** play *)

Lemma inFlight_app (l1 l2 : list SynthCall) :
  inFlight (l1 ++ Cancel :: l2) = inFlight (Cancel :: l2).
Proof. unfold inFlight. rewrite fold_left_app. reflexivity. Qed.

(** What [play] does on a supported player, by the state of the cache. *)
Lemma play_cached (command : DrillCommand) (interval : Q) (manualSpeed : bool)
    (speedMultiplier : Q) (p : CommandPlayer) (b : Browser) (u : SpeechSynthesisUtterance) :
  isSupported p = true ->
  utteranceCache p !! commandToKey command = Some u ->
  let u' := {| text := text u; pitch := pitch u; volume := volume u;
               rate := Qmin 10 (Qmax (1 # 2)
                         (if manualSpeed then speedMultiplier
                          else calculateAutoSpeed interval)) |} in
  play command interval manualSpeed speedMultiplier (p, b)
  = ({| isSupported := true;
        utteranceCache := <[commandToKey command := u']> (utteranceCache p) |},
     {| synthCalls := synthCalls b ++ [Cancel; Speak u']; warnings := warnings b |}).
Proof. intros Hs Hc. unfold play. rewrite Hs, Hc. reflexivity. Qed.

Lemma play_uncached (command : DrillCommand) (interval : Q) (manualSpeed : bool)
    (speedMultiplier : Q) (p : CommandPlayer) (b : Browser) :
  isSupported p = true ->
  utteranceCache p !! commandToKey command = None ->
  play command interval manualSpeed speedMultiplier (p, b)
  = (p, {| synthCalls := synthCalls b;
           warnings := warnings b ++
             ["Command not preloaded: " +:+ Direction_str (direction command)
                +:+ " " +:+ pretty (value command)] |}).
Proof. intros Hs Hc. unfold play. rewrite Hs, Hc. reflexivity. Qed.

Lemma play_unsupported (command : DrillCommand) (interval : Q) (manualSpeed : bool)
    (speedMultiplier : Q) (p : CommandPlayer) (b : Browser) :
  isSupported p = false ->
  play command interval manualSpeed speedMultiplier (p, b) = (p, b).
Proof. intros Hs. unfold play. rewrite Hs. reflexivity. Qed.

(** Whatever the player, the cache and the arguments, a cue that [play] hands
    to [speak] has its rate in [0.5, 10]. *)
Lemma play_rate_clamped (command : DrillCommand) (interval : Q) (manualSpeed : bool)
    (speedMultiplier : Q) (p : CommandPlayer) (b : Browser) :
  exists new,
    synthCalls (play command interval manualSpeed speedMultiplier (p, b)).2
      = synthCalls b ++ new /\
    Forall (fun u => 1 # 2 <= rate u /\ rate u <= 10) (spoken new).
Proof.
  destruct (isSupported p) eqn:Hs.
  - destruct (utteranceCache p !! commandToKey command) as [u|] eqn:Hc.
    + rewrite (play_cached _ _ _ _ _ _ _ Hs Hc). simpl. eexists. split; [reflexivity|].
      repeat constructor; simpl; apply clamp_range.
    + rewrite (play_uncached _ _ _ _ _ _ Hs Hc). simpl.
      exists []. rewrite app_nil_r. split; [reflexivity|constructor].
  - rewrite play_unsupported by exact Hs. exists []. rewrite app_nil_r.
    split; [reflexivity|constructor].
Qed.

(** *** The utterance cache *)

Lemma commandToKey_inj (c1 c2 : DrillCommand) :
  commandToKey c1 = commandToKey c2 -> c1 = c2.
Proof.
  destruct c1 as [d1 v1], c2 as [d2 v2]. unfold commandToKey.
  destruct d1, d2; simpl; intros H; try discriminate H;
    injection H as H; apply pretty_Z_inj in H; subst; reflexivity.
Qed.

Lemma inner_inv (v : Z) (cache : gmap string SpeechSynthesisUtterance)
    (k : string) (u : SpeechSynthesisUtterance) :
  fold_left (cacheCommand v) directions cache !! k = Some u ->
  (exists d, k = commandToKey {| direction := d; value := v |} /\ u = utteranceFor d v)
  \/ cache !! k = Some u.
Proof.
  unfold directions, cacheCommand; cbn [fold_left].
  rewrite !lookup_insert. intros Hl.
  repeat case_decide; try (right; exact Hl);
    left; inversion Hl; subst; eexists; split; reflexivity.
Qed.

Lemma inner_hit (v : Z) (cache : gmap string SpeechSynthesisUtterance) (d : Direction) :
  fold_left (cacheCommand v) directions cache
    !! commandToKey {| direction := d; value := v |} = Some (utteranceFor d v).
Proof.
  unfold directions, cacheCommand; cbn [fold_left].
  rewrite !lookup_insert.
  destruct d; repeat case_decide; try reflexivity; try congruence;
    repeat match goal with
    | H : commandToKey _ = commandToKey _ |- _ => apply commandToKey_inj in H
    end; congruence.
Qed.

Lemma inner_stable (v0 : Z) (cache : gmap string SpeechSynthesisUtterance)
    (d : Direction) (v : Z) :
  cache !! commandToKey {| direction := d; value := v |} = Some (utteranceFor d v) ->
  fold_left (cacheCommand v0) directions cache
    !! commandToKey {| direction := d; value := v |} = Some (utteranceFor d v).
Proof.
  intros Hc. unfold directions, cacheCommand; cbn [fold_left].
  rewrite !lookup_insert.
  repeat case_decide; try exact Hc;
    match goal with H : commandToKey _ = commandToKey _ |- _ =>
      apply commandToKey_inj in H; inversion H; subst; reflexivity end.
Qed.

Lemma preloadLoop_inv (cv : list Z) : forall cache k u,
  preloadLoop cv cache !! k = Some u ->
  (exists d v, v ∈ cv /\ k = commandToKey {| direction := d; value := v |}
               /\ u = utteranceFor d v)
  \/ cache !! k = Some u.
Proof.
  induction cv as [|v cv IH]; intros cache k u H; [right; exact H|].
  simpl in H. apply IH in H as [(d & v' & Hin & -> & ->) | H].
  - left. exists d, v'. split; [right; exact Hin | auto].
  - apply inner_inv in H as [(d & -> & ->) | H]; [left | right; exact H].
    exists d, v. split; [left | auto].
Qed.

Lemma preloadLoop_stable (cv : list Z) : forall cache d v,
  cache !! commandToKey {| direction := d; value := v |} = Some (utteranceFor d v) ->
  preloadLoop cv cache !! commandToKey {| direction := d; value := v |}
  = Some (utteranceFor d v).
Proof.
  induction cv as [|v0 cv IH]; intros cache d v H; [exact H|].
  simpl. apply IH, inner_stable, H.
Qed.

Lemma preloadLoop_hit (cv : list Z) : forall cache d v,
  v ∈ cv ->
  preloadLoop cv cache !! commandToKey {| direction := d; value := v |}
  = Some (utteranceFor d v).
Proof.
  induction cv as [|v0 cv IH]; intros cache d v Hin; [inversion Hin|].
  simpl. destruct (decide (v = v0)) as [->|Hne].
  - apply preloadLoop_stable, inner_hit.
  - apply IH. apply elem_of_cons in Hin as [?|?]; [contradiction|assumption].
Qed.

(** The cache after [preload] as a list of entries without repeated keys. *)
Lemma entriesFor_length (vs : list Z) : length (entriesFor vs) = (4 * length vs)%nat.
Proof. induction vs as [|v vs IH]; simpl; [reflexivity|]. rewrite IH. lia. Qed.

Lemma elem_of_entriesFor (vs : list Z) (k : string) (u : SpeechSynthesisUtterance) :
  (k, u) ∈ entriesFor vs <->
  exists d v, v ∈ vs /\ k = commandToKey {| direction := d; value := v |}
              /\ u = utteranceFor d v.
Proof.
  unfold entriesFor. rewrite list_elem_of_In, in_flat_map. split.
  - intros (v & Hv & Hin). apply in_map_iff in Hin as (d & E & _).
    inversion E; subst. exists d, v. split; [apply list_elem_of_In, Hv | auto].
  - intros (d & v & Hv & -> & ->). exists v. split; [apply list_elem_of_In, Hv|].
    apply in_map_iff. exists d. split; [reflexivity|].
    destruct d; simpl; auto.
Qed.

Lemma entriesFor_NoDup (vs : list Z) : NoDup vs -> NoDup (entriesFor vs).*1.
Proof.
  induction 1 as [|v vs Hnotin Hnd IH]; [constructor|].
  change (entriesFor (v :: vs)) with
    (map (fun d => (commandToKey {| direction := d; value := v |}, utteranceFor d v))
       directions ++ entriesFor vs).
  rewrite fmap_app. apply NoDup_app. split; [|split; [|exact IH]].
  - unfold directions. simpl.
    repeat (constructor; [rewrite ?elem_of_cons, elem_of_nil;
      intros Hk; repeat destruct Hk as [Hk|Hk]; try (apply commandToKey_inj in Hk; discriminate Hk);
      exact Hk|]).
    constructor.
  - intros k Hk1 Hk2.
    apply list_elem_of_fmap in Hk1 as ([k1 u1] & -> & H1).
    apply list_elem_of_fmap in Hk2 as ([k2 u2] & E & H2). simpl in E. subst k2.
    apply list_elem_of_In, in_map_iff in H1 as (d1 & E1 & _). inversion E1; subst.
    apply elem_of_entriesFor in H2 as (d2 & v2 & Hv2 & Ek & _).
    apply commandToKey_inj in Ek. inversion Ek; subst. contradiction.
Qed.

Lemma preloadLoop_entries (cv : list Z) :
  preloadLoop cv ∅ = list_to_map (entriesFor (remove_dups cv)).
Proof.
  apply map_eq. intros k. apply option_eq. intros u.
  rewrite <- elem_of_list_to_map by apply entriesFor_NoDup, NoDup_remove_dups.
  rewrite elem_of_entriesFor. split.
  - intros H. apply preloadLoop_inv in H as [(d & v & Hin & E)|H].
    + exists d, v. rewrite elem_of_remove_dups. auto.
    + rewrite lookup_empty in H. discriminate H.
  - intros (d & v & Hin & -> & ->). apply preloadLoop_hit.
    rewrite elem_of_remove_dups in Hin. exact Hin.
Qed.

Lemma preloadLoop_size (cv : list Z) :
  size (preloadLoop cv ∅) = (4 * length (remove_dups cv))%nat.
Proof.
  rewrite preloadLoop_entries, map_size_list_to_map, entriesFor_length; [reflexivity|].
  apply entriesFor_NoDup, NoDup_remove_dups.
Qed.

(** *** The claims on the player *)

(** C7, the claim as worded, at interval 0.75s: the interval falls two full
    tenths of a second below 1.0s, which the wording turns into a rate of 2.6,
    while [calculateAutoSpeed] rounds 2.5 steps up to 3 and returns 2.9. *)
Lemma calculateAutoSpeed_not_full_steps :
  calculateAutoSpeed (3 # 4) == 29 # 10 /\
  spec_auto_rate (3 # 4) == 26 # 10 /\
  ~ calculateAutoSpeed (3 # 4) == spec_auto_rate (3 # 4).
Proof.
  split; [reflexivity|]. split; [reflexivity|].
  intros H. vm_compute in H. discriminate H.
Qed.

(** C7, amended.  The automatic rate is 2.0 when interval >= 1.0s; below 1.0s
    it is 2.0 plus 0.3 times the number of 0.1s steps nearest to
    (1.0 - interval), a half step counting up; on a whole number of tenths of
    a second that is the number of full 0.1s steps below 1.0s.  Interval 1.0
    gives 2.0, 0.7 gives 2.9 and 1.5 gives 2.0, and the rate of a cue handed
    to the engine by [play] is always within [0.5, 10]. *)
Theorem calculateAutoSpeed_nearest_step :
  (forall interval, 1 <= interval -> calculateAutoSpeed interval == 2) /\
  (forall interval (k : Z),
     interval < 1 ->
     inject_Z k - (1 # 2) <= (1 - interval) * 10 < inject_Z k + (1 # 2) ->
     calculateAutoSpeed interval == 2 + inject_Z k * (3 # 10)) /\
  (forall j : Z, calculateAutoSpeed (inject_Z j / 10) == spec_auto_rate (inject_Z j / 10)) /\
  calculateAutoSpeed 1 == 2 /\
  calculateAutoSpeed (7 # 10) == 29 # 10 /\
  calculateAutoSpeed (3 # 2) == 2 /\
  (forall command interval manualSpeed speedMultiplier p b,
     exists new,
       synthCalls (play command interval manualSpeed speedMultiplier (p, b)).2
         = synthCalls b ++ new /\
       Forall (fun u => 1 # 2 <= rate u /\ rate u <= 10) (spoken new)).
Proof.
  split; [exact calculateAutoSpeed_ge|].
  split; [exact calculateAutoSpeed_lt|].
  split; [exact calculateAutoSpeed_tenths|].
  split; [reflexivity|]. split; [reflexivity|]. split; [reflexivity|].
  exact play_rate_clamped.
Qed.

Lemma calculateAutoSpeed_nearest_step_witness :
  3 # 4 < 1 /\
  inject_Z 3 - (1 # 2) <= (1 - (3 # 4)) * 10 < inject_Z 3 + (1 # 2) /\
  calculateAutoSpeed (3 # 4) == 2 + inject_Z 3 * (3 # 10).
Proof.
  assert (H1 : 3 # 4 < 1) by reflexivity.
  assert (H2 : inject_Z 3 - (1 # 2) <= (1 - (3 # 4)) * 10 < inject_Z 3 + (1 # 2))
    by (split; [discriminate | reflexivity]).
  split; [exact H1|]. split; [exact H2|].
  exact (proj1 (proj2 calculateAutoSpeed_nearest_step) (3 # 4) 3%Z H1 H2).
Defined.

(** C9, the claim as worded, on a supported player that was never preloaded
    while a cue is being spoken: [play] returns before [cancel], so no cancel
    reaches the engine and the earlier cue stays in flight. *)
Lemma play_uncached_does_not_cancel :
  ~ In Cancel
      (synthCalls (play {| direction := Up; value := 5 |} 1 false 2
                     (freshPlayer, busyBrowser)).2) /\
  inFlight (synthCalls (play {| direction := Up; value := 5 |} 1 false 2
                          (freshPlayer, busyBrowser)).2)
  = [utteranceFor Up 5].
Proof.
  split; [|reflexivity].
  simpl. intros [H|[]]. discriminate H.
Qed.

(** C9, amended.  On a supported platform, a call to [play] for a pre-cached
    command cancels any in-flight cue and then speaks the cached cue, which is
    the only one in flight afterwards; for a command that was not pre-cached
    [play] makes no call on the engine at all (no cancel, no speech), logs
    one warning and leaves the player as it was. *)
Theorem play_cancels_when_cached (command : DrillCommand) (interval : Q)
    (manualSpeed : bool) (speedMultiplier : Q) (p : CommandPlayer) (b : Browser) :
  isSupported p = true ->
  match utteranceCache p !! commandToKey command with
  | Some u =>
      exists u',
        synthCalls (play command interval manualSpeed speedMultiplier (p, b)).2
          = synthCalls b ++ [Cancel; Speak u'] /\
        inFlight (synthCalls (play command interval manualSpeed speedMultiplier (p, b)).2)
          = [u'] /\
        text u' = text u /\
        warnings (play command interval manualSpeed speedMultiplier (p, b)).2 = warnings b
  | None =>
      (play command interval manualSpeed speedMultiplier (p, b)).1 = p /\
      synthCalls (play command interval manualSpeed speedMultiplier (p, b)).2 = synthCalls b /\
      exists line,
        warnings (play command interval manualSpeed speedMultiplier (p, b)).2
          = warnings b ++ [line]
  end.
Proof.
  intros Hs. destruct (utteranceCache p !! commandToKey command) as [u|] eqn:Hc.
  - rewrite (play_cached _ _ _ _ _ _ _ Hs Hc). simpl. eexists.
    split; [reflexivity|]. split; [|split; reflexivity].
    rewrite inFlight_app. reflexivity.
  - rewrite (play_uncached _ _ _ _ _ _ Hs Hc). simpl. eauto.
Qed.

Lemma play_cancels_when_cached_witness :
  isSupported (preload [5%Z] freshPlayer) = true /\
  match utteranceCache (preload [5%Z] freshPlayer)
          !! commandToKey {| direction := Up; value := 5 |} with
  | Some u =>
      exists u',
        synthCalls (play {| direction := Up; value := 5 |} 1 false 2
                      (preload [5%Z] freshPlayer, busyBrowser)).2
          = synthCalls busyBrowser ++ [Cancel; Speak u'] /\
        inFlight (synthCalls (play {| direction := Up; value := 5 |} 1 false 2
                                (preload [5%Z] freshPlayer, busyBrowser)).2)
          = [u'] /\
        text u' = text u /\
        warnings (play {| direction := Up; value := 5 |} 1 false 2
                    (preload [5%Z] freshPlayer, busyBrowser)).2 = warnings busyBrowser
  | None =>
      (play {| direction := Up; value := 5 |} 1 false 2
         (preload [5%Z] freshPlayer, busyBrowser)).1 = preload [5%Z] freshPlayer /\
      synthCalls (play {| direction := Up; value := 5 |} 1 false 2
                    (preload [5%Z] freshPlayer, busyBrowser)).2 = synthCalls busyBrowser /\
      exists line,
        warnings (play {| direction := Up; value := 5 |} 1 false 2
                    (preload [5%Z] freshPlayer, busyBrowser)).2
          = warnings busyBrowser ++ [line]
  end.
Proof.
  assert (H : isSupported (preload [5%Z] freshPlayer) = true) by reflexivity.
  split; [exact H|].
  exact (play_cancels_when_cached {| direction := Up; value := 5 |} 1 false 2
           (preload [5%Z] freshPlayer) busyBrowser H).
Defined.

(** C10.  After [preload clickValues] on a supported platform the cache holds
    exactly one entry for each pair of one of the four directions and one of
    the values of [clickValues]: the entry under the key of the pair is the
    cue of the pair, distinct pairs have distinct keys, and there is no other
    entry, so that the cache has four entries per distinct value; nothing of
    the cache of before the call remains. *)
Theorem preload_cache_exact (clickValues : list Z) (p : CommandPlayer) :
  isSupported p = true ->
  (forall k u,
     utteranceCache (preload clickValues p) !! k = Some u <->
     exists d v, v ∈ clickValues /\
       k = commandToKey {| direction := d; value := v |} /\ u = utteranceFor d v) /\
  (forall d, d ∈ directions) /\
  (forall c1 c2, commandToKey c1 = commandToKey c2 -> c1 = c2) /\
  size (utteranceCache (preload clickValues p))
    = (4 * length (remove_dups clickValues))%nat /\
  utteranceCache (preload clickValues p) = utteranceCache (preload clickValues freshPlayer).
Proof.
  intros Hs. unfold preload. rewrite Hs. simpl.
  split; [|split; [|split; [exact commandToKey_inj |
    split; [apply preloadLoop_size | reflexivity]]]].
  - intros k u. split.
    + intros H. apply preloadLoop_inv in H as [H|H]; [exact H|].
      rewrite lookup_empty in H. discriminate H.
    + intros (d & v & Hin & -> & ->). apply preloadLoop_hit, Hin.
  - intros d. unfold directions. destruct d; set_solver.
Qed.

Lemma preload_cache_exact_witness :
  isSupported (preload [10%Z] freshPlayer) = true /\
  utteranceCache (preload [5%Z] (preload [10%Z] freshPlayer)) !! "LEFT_5"
    = Some (utteranceFor Left 5) /\
  utteranceCache (preload [5%Z] (preload [10%Z] freshPlayer)) !! "LEFT_10" = None.
Proof.
  assert (H : isSupported (preload [10%Z] freshPlayer) = true) by reflexivity.
  split; [exact H|].
  pose proof (proj1 (preload_cache_exact [5%Z] (preload [10%Z] freshPlayer) H)) as L.
  split.
  - apply L. exists Left, 5%Z. split; [left|split; reflexivity].
  - destruct (utteranceCache (preload [5%Z] (preload [10%Z] freshPlayer)) !! "LEFT_10")
      as [u|] eqn:E; [|reflexivity].
    exfalso. apply L in E as (d & v & Hin & Hk & _).
    apply list_elem_of_singleton in Hin. subst v. destruct d; discriminate Hk.
Defined.

End SpeechFacts.

(* ------------------------------------------------------------------------- *)
(** ** The drill runner *)

Section RunnerFacts.
Import Runner.
Local Open Scope Z_scope.

(** The half-interval callback leaves the position inside the bound, whatever
    the command. *)
Lemma gridUpdate_clamped (p : Props) (c : DrillCommand) (s : State) :
  0 <= maxTAndE p ->
  Generator.withinBound (maxTAndE p) (tAndERef (gridUpdate p c s)).
Proof.
  intros Hm. unfold gridUpdate.
  destruct (Generator.applyCommand c (tAndERef s)) as [t e].
  unfold Generator.withinBound. simpl. lia.
Qed.

(** The end-of-interval callback of the last command reports the position. *)
Lemma nextCommand_last (p : Props) (s : State) :
  S (currentCommandIndex s) = length (commands p) ->
  nextCommand p s = (s, [OnFinish (tAndERef s).1 (tAndERef s).2]).
Proof.
  intros H. unfold nextCommand.
  destruct (Z.geb_spec (Z.of_nat (currentCommandIndex s))
              (Z.of_nat (length (commands p)) - 1)) as [_|Hlt];
    [reflexivity | lia].
Qed.

(** C8, the claim as worded, on a run started with an empty sequence: the
    effect neither calls [onFinish] nor arms a timer, so the final position is
    never delivered and nothing is left that could deliver it. *)
Lemma effect_empty_sequence_does_not_finish :
  ~ finishes (effect emptyRun initialState) /\
  ~ schedules (effect emptyRun initialState).
Proof.
  split; intros (x & y & H); exact H.
Qed.

(** C8, amended.  When the current index is past the end of a sequence that is
    not empty (the sequence was replaced by a shorter one during the run), the
    effect calls [onFinish] at once with the last simulated position and arms
    no timer; when the run is started on an empty sequence the effect does
    nothing: [onFinish] is not called. *)
Theorem effect_past_end_finishes (p : Props) (s : State) (p0 : Props) :
  commands p !! currentCommandIndex s = None ->
  commands p <> [] ->
  commands p0 = [] ->
  effect p s = [OnFinish (tAndERef s).1 (tAndERef s).2] /\
  effect p0 initialState = [].
Proof.
  intros Hnone Hne Hempty. unfold effect. rewrite Hnone, Hempty. simpl.
  destruct (commands p); [congruence|]. split; reflexivity.
Qed.

Lemma effect_past_end_finishes_witness :
  [{| direction := Up; value := 5 |}] !! 1%nat = None /\
  [{| direction := Up; value := 5 |}] <> [] /\
  commands emptyRun = [] /\
  effect {| commands := [{| direction := Up; value := 5 |}]; commandInterval := 1;
            voiceEnabled := false; ttsManualSpeed := false; ttsSpeedMultiplier := 2;
            maxTAndE := 25 |}
         {| currentCommandIndex := 1; tAndERef := (0, 5) |}
  = [OnFinish 0 5] /\
  effect emptyRun initialState = [].
Proof.
  assert (H1 : [{| direction := Up; value := 5 |}] !! 1%nat = None) by reflexivity.
  assert (H2 : [{| direction := Up; value := 5 |}] <> []) by discriminate.
  assert (H3 : commands emptyRun = []) by reflexivity.
  split; [exact H1|]. split; [exact H2|]. split; [exact H3|].
  exact (effect_past_end_finishes
           {| commands := [{| direction := Up; value := 5 |}]; commandInterval := 1;
              voiceEnabled := false; ttsManualSpeed := false; ttsSpeedMultiplier := 2;
              maxTAndE := 25 |}
           {| currentCommandIndex := 1; tAndERef := (0, 5) |} emptyRun H1 H2 H3).
Defined.

End RunnerFacts.

(* ========================================================================= *)
(** * Further properties of the code *)

(* ------------------------------------------------------------------------- *)
(** ** The generator: completeness, content and outcomes *)

Section GeneratorMore.
Import Rand Generator.
Local Open Scope Z_scope.

Lemma applyCommand_deltas (c : DrillCommand) (pos : Z * Z) :
  applyCommand c pos = (pos.1 + traverseDelta c, pos.2 + elevationDelta c).
Proof.
  destruct pos as [t e], c as [[] v]; unfold applyCommand, traverseDelta, elevationDelta;
    simpl; f_equal; lia.
Qed.

(** When no command of a pool is valid, every command pushes further out on
    the side where the position already is. *)
Lemma all_invalid_sums (avail : list DrillCommand) (t e m : Z) :
  Forall (fun c => 0 <= value c <= m /\ isMoveValid c t e m = false) avail ->
  (0 < e -> 0 <= elevationSum avail) /\ (e < 0 -> elevationSum avail <= 0) /\
  (0 < t -> 0 <= traverseSum avail) /\ (t < 0 -> traverseSum avail <= 0).
Proof.
  induction 1 as [|c l [Hv Hc] _ IH].
  - unfold elevationSum, traverseSum; simpl. lia.
  - rewrite elevationSum_cons, traverseSum_cons.
    destruct c as [d v]; unfold isMoveValid, elevationDelta, traverseDelta in *;
      simpl in *.
    destruct d; lia.
Qed.

(** A balanced pool of magnitudes within the bound always offers a move. *)
Lemma balanced_pool_has_valid_move (avail : list DrillCommand) (pos : Z * Z) (m : Z) :
  avail <> [] ->
  Forall (fun c => 0 <= value c <= m) avail ->
  pos.1 + traverseSum avail = 0 ->
  pos.2 + elevationSum avail = 0 ->
  validMoveIndices avail pos.1 pos.2 m <> [].
Proof.
  intros Hne Hval Ht He Hnil. destruct pos as [t e]; simpl in *.
  assert (Hall : Forall (fun c => 0 <= value c <= m /\ isMoveValid c t e m = false) avail).
  { apply Forall_lookup. intros i c Hi. split.
    - rewrite Forall_forall in Hval. apply Hval. eapply list_elem_of_lookup_2; eauto.
    - destruct (isMoveValid c t e m) eqn:E; [|reflexivity].
      assert (Hin : In i (validMoveIndices avail t e m))
        by (apply validMoveIndices_spec; eauto).
      rewrite Hnil in Hin. destruct Hin. }
  pose proof (all_invalid_sums _ _ _ _ Hall) as (S1 & S2 & S3 & S4).
  destruct avail as [|c l]; [congruence|].
  inversion Hall as [|? ? [Hv Hc] _]; subst.
  destruct c as [d v]; unfold isMoveValid in Hc; simpl in *.
  destruct d; lia.
Qed.

(** From a balanced pool of magnitudes within the bound the pick loop is never
    stuck: it returns as many commands as the pool holds. *)
Lemma pickLoop_balanced_complete (fuel : nat) : forall avail pos m g,
  length avail = fuel ->
  Forall (fun c => 0 <= value c <= m) avail ->
  pos.1 + traverseSum avail = 0 ->
  pos.2 + elevationSum avail = 0 ->
  length (pickLoop fuel avail pos m g).1 = length avail.
Proof.
  induction fuel as [|fuel IH]; intros avail pos m g Hlen Hval Ht He; simpl.
  - lia.
  - destruct avail as [|c0 avail0] eqn:Ea; [discriminate|].
    rewrite <- Ea in *. clear Ea.
    assert (Hne : avail <> []) by (intros ->; discriminate).
    pose proof (balanced_pool_has_valid_move avail pos m Hne Hval Ht He) as Hvalid.
    destruct (validMoveIndices avail pos.1 pos.2 m) as [|i0 valid0] eqn:Ev;
      [congruence|].
    rewrite <- Ev. unfold bind at 1.
    destruct (valid_pick_in_range (validMoveIndices avail pos.1 pos.2 m) g) as [i Ei].
    { rewrite Ev. discriminate. }
    destruct (Math_random g) as [r g1] eqn:Er. simpl in Ei. rewrite Ei.
    destruct (validMoveIndices_lookup _ _ _ _ _ _ Ei) as (c & Ec & _).
    rewrite Ec. unfold bind, ret.
    specialize (IH (delete i avail) (applyCommand c pos) m g1).
    destruct (pickLoop fuel (delete i avail) (applyCommand c pos) m g1) as [rest g2].
    simpl in *.
    assert (Hi : (i < length avail)%nat) by (eapply lookup_lt_Some; eauto).
    assert (Hd : length (delete i avail) = fuel) by (rewrite length_delete; eauto; lia).
    pose proof (delete_Permutation avail i c Ec) as Hp.
    pose proof (elevationSum_Permutation _ _ Hp) as He'.
    pose proof (traverseSum_Permutation _ _ Hp) as Ht'.
    rewrite elevationSum_cons in He'. rewrite traverseSum_cons in Ht'.
    rewrite IH; try lia.
    + apply Forall_delete. exact Hval.
    + rewrite applyCommand_deltas. simpl. lia.
    + rewrite applyCommand_deltas. simpl. lia.
Qed.

(** On a feasible configuration an attempt always succeeds. *)
Lemma attemptOnce_feasible (n : Z) (cv : list Z) (m : Z) (g : Rng) :
  cv <> [] ->
  Forall (fun v => 0 <= v <= m) cv ->
  -1 <= n ->
  exists final g', attemptOnce n cv m g = (Some final, g').
Proof.
  intros Hne Hcv Hn.
  pose proof (positiveLoop_shape (Z.to_nat (halfCommands n)) cv g Hne) as Hshape.
  pose proof (positiveLoop_length (Z.to_nat (halfCommands n)) cv g) as Hplen.
  unfold attemptOnce, bind, ret.
  destruct (positiveLoop (Z.to_nat (halfCommands n)) cv g) as [ps g1].
  simpl in Hshape, Hplen.
  assert (Hdir : Forall (fun c => direction c = Up \/ direction c = Right) ps).
  { eapply Forall_impl; [exact Hshape|]. intros c [Hd _]. exact Hd. }
  destruct (balanced_pool ps Hdir) as [He Ht].
  pose proof (pickLoop_balanced_complete (length (ps ++ map opposite ps))
                (ps ++ map opposite ps) (0, 0) m g1 eq_refl) as Hc.
  destruct (pickLoop _ _ _ m g1) as [final g2]. simpl in Hc.
  assert (Hf : length final = length (ps ++ map opposite ps)).
  { apply Hc; [|rewrite Ht; reflexivity|rewrite He; reflexivity].
    rewrite Forall_forall in Hcv.
    apply Forall_app. split; [|apply Forall_map];
      (eapply Forall_impl; [exact Hshape|]); intros c [_ Hc']; simpl; apply Hcv, Hc'. }
  assert (Ht0 : 0 <= totalCommands n).
  { unfold totalCommands. destruct (Z.eqb_spec (Z.rem n 2) 0) as [E|E]; [|lia].
    destruct (Z.eq_dec n (-1)) as [->|]; [discriminate E|lia]. }
  assert (Hlen : Z.of_nat (length final) = totalCommands n).
  { rewrite Hf, length_app, length_map, Hplen.
    pose proof (totalCommands_even n). lia. }
  apply Z.eqb_eq in Hlen. rewrite Hlen. eauto.
Qed.

(** When every attempt fails the loop runs to its end. *)
Lemma attemptLoop_all_fail (n : Z) (cv : list Z) (m : Z) :
  (forall g, (attemptOnce n cv m g).1 = None) ->
  forall remaining attempt g,
    (attemptLoop remaining attempt n cv m g).1
    = {| drill := []; attempts := attempt + remaining; errors := [failure_message] |}.
Proof.
  intros Hfail. induction remaining as [|remaining IH]; intros attempt g; simpl.
  - unfold ret. simpl. f_equal. lia.
  - unfold bind. specialize (Hfail g).
    destruct (attemptOnce n cv m g) as [res g1]. simpl in Hfail. subst res.
    rewrite IH. f_equal. lia.
Qed.

Lemma attemptLoop_outcome (n : Z) (cv : list Z) (m : Z) :
  forall remaining attempt g,
    let out := (attemptLoop remaining attempt n cv m g).1 in
    (attempts out <= attempt + remaining)%nat /\
    ((errors out = [] /\ (attempt < attempts out)%nat) \/
     (errors out = [failure_message] /\ drill out = [] /\
      attempts out = (attempt + remaining)%nat)).
Proof.
  induction remaining as [|remaining IH]; intros attempt g; simpl.
  - unfold ret. simpl. split; [lia|]. right. repeat split. lia.
  - unfold bind. destruct (attemptOnce n cv m g) as [[final|] g1].
    + simpl. split; [lia|]. left. split; [reflexivity|lia].
    + specialize (IH (S attempt) g1). simpl in IH. destruct IH as [H1 H2].
      split; [lia|]. destruct H2 as [[E L]|(E & D & A)]; [left|right].
      * split; [exact E|lia].
      * repeat split; [exact E|exact D|lia].
Qed.

Lemma guard_passes (cv : list Z) (m : Z) :
  cv <> [] -> Forall (fun v => v <= m) cv ->
  (length cv =? 0)%nat || existsb (fun v => v >? m) cv = false.
Proof.
  intros Hne Hle. apply orb_false_iff. split.
  - destruct cv; [congruence|reflexivity].
  - apply not_true_is_false. intros Hex.
    apply existsb_exists in Hex as (v & Hv & Hgt).
    rewrite Forall_forall in Hle. apply list_elem_of_In, Hle in Hv. lia.
Qed.

(** The commands of a successful attempt, counted. *)
Lemma occurrences_cons (d : Direction) (v : Z) (c : DrillCommand) (l : list DrillCommand) :
  occurrences d v (c :: l)
  = ((if DrillCommand_eq_dec c {| direction := d; value := v |} then 1 else 0)
     + occurrences d v l)%nat.
Proof.
  unfold occurrences. simpl.
  destruct (DrillCommand_eq_dec c {| direction := d; value := v |}); reflexivity.
Qed.

Ltac decide_commands :=
  repeat match goal with
  | |- context [DrillCommand_eq_dec ?a ?b] =>
      let E := fresh "E" in
      destruct (DrillCommand_eq_dec a b) as [E|E];
      [try discriminate E; try (inversion E; subst) |]
  end; try congruence; try lia.

Lemma positives_occurrences (ps : list DrillCommand) (v : Z) :
  Forall (fun c => direction c = Up \/ direction c = Right) ps ->
  occurrences Down v ps = 0%nat /\ occurrences Left v ps = 0%nat /\
  occurrences Up v (map opposite ps) = 0%nat /\
  occurrences Right v (map opposite ps) = 0%nat /\
  occurrences Down v (map opposite ps) = occurrences Up v ps /\
  occurrences Left v (map opposite ps) = occurrences Right v ps.
Proof.
  induction 1 as [|c l Hc _ IH]; [repeat split; reflexivity|].
  destruct IH as (I1 & I2 & I3 & I4 & I5 & I6).
  cbn [map]. rewrite !occurrences_cons, I1, I2, I3, I4, I5, I6.
  destruct c as [d w]. simpl in Hc. unfold opposite. cbn [direction value].
  destruct Hc as [-> | ->]; repeat split; decide_commands.
Qed.

Lemma occurrences_app (d : Direction) (v : Z) (l1 l2 : list DrillCommand) :
  occurrences d v (l1 ++ l2) = (occurrences d v l1 + occurrences d v l2)%nat.
Proof. unfold occurrences. apply count_occ_app. Qed.

Lemma occurrences_Permutation (d : Direction) (v : Z) (l1 l2 : list DrillCommand) :
  l1 ≡ₚ l2 -> occurrences d v l1 = occurrences d v l2.
Proof. intros H. unfold occurrences. apply Permutation_count_occ. exact H. Qed.

Lemma generateDrill_feasible (n : Z) (cv : list Z) (m : Z) (g : Rng) :
  cv <> [] ->
  Forall (fun v => 0 <= v <= m) cv ->
  -1 <= n ->
  exists final g',
    generateDrill n cv m g = ({| drill := final; attempts := 1; errors := [] |}, g') /\
    attemptOnce n cv m g = (Some final, g') /\
    Z.of_nat (length final) = totalCommands n.
Proof.
  intros Hne Hcv Hn.
  destruct (attemptOnce_feasible n cv m g Hne Hcv Hn) as (final & g' & Ha).
  assert (Hle : Forall (fun v => v <= m) cv).
  { eapply Forall_impl; [exact Hcv|]. simpl. intros; lia. }
  exists final, g'. split; [apply generateDrill_first_attempt; assumption|].
  split; [exact Ha|].
  destruct (attemptOnce_success _ _ _ _ _ _ Ha) as (_ & _ & _ & _ & Hlen). exact Hlen.
Qed.

Lemma generateDrill_values (n : Z) (cv : list Z) (m : Z) (g : Rng) :
  Forall (fun c => value c ∈ cv) (drill (generateDrill n cv m g).1).
Proof.
  destruct (drill (generateDrill n cv m g).1) as [|c0 l] eqn:Ed; [constructor|].
  assert (Hne : drill (generateDrill n cv m g).1 <> []) by (rewrite Ed; discriminate).
  destruct (generateDrill_guard _ _ _ _ Hne) as [Hcv _].
  destruct (generateDrill_success _ _ _ _ Hne) as (g1 & g2 & Ha).
  destruct (attemptOnce_Permutation _ _ _ _ _ _ Ha) as (ps & Eps & Hperm).
  rewrite <- Ed, <- Hperm. subst ps.
  pose proof (positiveLoop_shape (Z.to_nat (halfCommands n)) cv g1 Hcv) as Hshape.
  apply Forall_app. split; [|apply Forall_map];
    (eapply Forall_impl; [exact Hshape|]); intros c [_ Hc]; exact Hc.
Qed.

(** A drill returned for click values that are not negative ends where it
    started and never leaves the bound on the way. *)
Lemma generateDrill_sound (n : Z) (cv : list Z) (m : Z) (g : Rng) :
  Forall (fun v => 0 <= v) cv ->
  drill (generateDrill n cv m g).1 <> [] ->
  positionAfter (drill (generateDrill n cv m g).1) = (0, 0) /\
  forall k, withinBound m (positionAfter (firstn k (drill (generateDrill n cv m g).1))).
Proof.
  intros Hpos Hne.
  destruct (generateDrill_guard _ _ _ _ Hne) as [Hcv Hle].
  destruct (generateDrill_success _ _ _ _ Hne) as (g1 & g2 & Ha).
  split.
  - destruct (attemptOnce_Permutation _ _ _ _ _ _ Ha) as (ps & Eps & Hperm).
    rewrite positionAfter_sums, <- (elevationSum_Permutation _ _ Hperm),
      <- (traverseSum_Permutation _ _ Hperm).
    assert (Hdir : Forall (fun c => direction c = Up \/ direction c = Right) ps).
    { subst ps. eapply Forall_impl; [apply positiveLoop_shape, Hcv|].
      intros c [Hd _]. exact Hd. }
    destruct (balanced_pool ps Hdir) as [-> ->]. reflexivity.
  - intros k. eapply attemptOnce_within; eauto.
    destruct cv as [|v cv']; [congruence|].
    inversion Hpos; inversion Hle; subst. lia.
Qed.

(** X1.  On a feasible configuration (click values not empty, each between 0
    and [maxTAndE], and a command count of at least -1) the pick loop is never
    stuck: [generateDrill] succeeds on its first attempt whatever the draws,
    logs nothing, and returns [numCommands] rounded up to even commands. *)
Theorem generateDrill_feasible_first_attempt (numCommands : Z) (clickValues : list Z)
    (maxTAndE : Z) (g : Rng) :
  clickValues <> [] ->
  Forall (fun v => 0 <= v <= maxTAndE) clickValues ->
  -1 <= numCommands ->
  attempts (generateDrill numCommands clickValues maxTAndE g).1 = 1%nat /\
  errors (generateDrill numCommands clickValues maxTAndE g).1 = [] /\
  Z.of_nat (length (drill (generateDrill numCommands clickValues maxTAndE g).1))
  = (if Z.even numCommands then numCommands else numCommands + 1).
Proof.
  intros Hne Hcv Hn.
  destruct (attemptOnce_feasible numCommands clickValues maxTAndE g Hne Hcv Hn)
    as (final & g' & Ha).
  assert (Hle : Forall (fun v => v <= maxTAndE) clickValues).
  { eapply Forall_impl; [exact Hcv|]. simpl. intros; lia. }
  rewrite (generateDrill_first_attempt _ _ _ _ _ _ Hne Hle Ha). simpl.
  split; [reflexivity|]. split; [reflexivity|].
  destruct (attemptOnce_success _ _ _ _ _ _ Ha) as (_ & _ & _ & _ & Hlen).
  rewrite Hlen. apply totalCommands_round_up.
Qed.

(** X2.  Every command that [generateDrill] returns carries a magnitude taken
    from [clickValues]. *)
Theorem generateDrill_values_from_clickValues (numCommands : Z) (clickValues : list Z)
    (maxTAndE : Z) (g : Rng) :
  Forall (fun c => value c ∈ clickValues)
    (drill (generateDrill numCommands clickValues maxTAndE g).1).
Proof.
  destruct (drill (generateDrill numCommands clickValues maxTAndE g).1) as [|c0 l] eqn:Ed;
    [constructor|].
  assert (Hne : drill (generateDrill numCommands clickValues maxTAndE g).1 <> [])
    by (rewrite Ed; discriminate).
  destruct (generateDrill_guard _ _ _ _ Hne) as [Hcv _].
  destruct (generateDrill_success _ _ _ _ Hne) as (g1 & g2 & Ha).
  destruct (attemptOnce_Permutation _ _ _ _ _ _ Ha) as (ps & Eps & Hperm).
  rewrite <- Ed, <- Hperm. subst ps.
  pose proof (positiveLoop_shape (Z.to_nat (halfCommands numCommands)) clickValues g1 Hcv)
    as Hshape.
  apply Forall_app. split; [|apply Forall_map];
    (eapply Forall_impl; [exact Hshape|]); intros c [_ Hc]; exact Hc.
Qed.

(** X3.  In what [generateDrill] returns, every magnitude occurs as often
    downwards as upwards and as often to the left as to the right: each move
    comes with its exact opposite. *)
Theorem generateDrill_paired (numCommands : Z) (clickValues : list Z)
    (maxTAndE : Z) (g : Rng) (v : Z) :
  occurrences Down v (drill (generateDrill numCommands clickValues maxTAndE g).1)
  = occurrences Up v (drill (generateDrill numCommands clickValues maxTAndE g).1) /\
  occurrences Left v (drill (generateDrill numCommands clickValues maxTAndE g).1)
  = occurrences Right v (drill (generateDrill numCommands clickValues maxTAndE g).1).
Proof.
  destruct (drill (generateDrill numCommands clickValues maxTAndE g).1) as [|c0 l] eqn:Ed;
    [split; reflexivity|].
  assert (Hne : drill (generateDrill numCommands clickValues maxTAndE g).1 <> [])
    by (rewrite Ed; discriminate).
  destruct (generateDrill_guard _ _ _ _ Hne) as [Hcv _].
  destruct (generateDrill_success _ _ _ _ Hne) as (g1 & g2 & Ha).
  destruct (attemptOnce_Permutation _ _ _ _ _ _ Ha) as (ps & Eps & Hperm).
  rewrite <- Ed, <- !(occurrences_Permutation _ _ _ _ Hperm), !occurrences_app.
  assert (Hdir : Forall (fun c => direction c = Up \/ direction c = Right) ps).
  { subst ps. eapply Forall_impl; [apply positiveLoop_shape, Hcv|].
    intros c [Hd _]. exact Hd. }
  destruct (positives_occurrences ps v Hdir) as (I1 & I2 & I3 & I4 & I5 & I6).
  rewrite I1, I2, I3, I4, I5, I6. split; lia.
Qed.

(** X4.  Whatever the input, [generateDrill] enters at most
    [MAX_GENERATION_ATTEMPTS] = 10 attempts; it enters none exactly when the
    guard rejects the click values; and it logs its failure message exactly
    when it returns the empty sequence after all 10 attempts failed. *)
Theorem generateDrill_outcome (numCommands : Z) (clickValues : list Z)
    (maxTAndE : Z) (g : Rng) :
  (attempts (generateDrill numCommands clickValues maxTAndE g).1 <= 10)%nat /\
  (attempts (generateDrill numCommands clickValues maxTAndE g).1 = 0%nat <->
   clickValues = [] \/ Exists (fun v => v > maxTAndE) clickValues) /\
  (errors (generateDrill numCommands clickValues maxTAndE g).1 = [] \/
   (errors (generateDrill numCommands clickValues maxTAndE g).1 = [failure_message] /\
    drill (generateDrill numCommands clickValues maxTAndE g).1 = [] /\
    attempts (generateDrill numCommands clickValues maxTAndE g).1 = 10%nat)).
Proof.
  unfold generateDrill.
  destruct ((length clickValues =? 0)%nat || existsb (fun v => v >? maxTAndE) clickValues)
    eqn:E.
  - simpl. split; [lia|]. split; [|left; reflexivity].
    split; [intros _|reflexivity].
    apply orb_true_iff in E as [E|E].
    + left. destruct clickValues; [reflexivity|discriminate].
    + right. apply existsb_exists in E as (v & Hv & Hgt).
      apply Exists_exists. exists v. split; [apply list_elem_of_In, Hv | lia].
  - pose proof (attemptLoop_outcome numCommands clickValues maxTAndE
                  MAX_GENERATION_ATTEMPTS 0 g) as [H1 H2].
    cbv zeta in H1, H2. unfold MAX_GENERATION_ATTEMPTS in *.
    rewrite Nat.add_0_l in H1, H2. split; [exact H1|]. split.
    + split.
      * intros H0. destruct H2 as [[_ L]|(_ & _ & A)]; [lia|].
        rewrite A in H0. discriminate H0.
      * intros H. exfalso. apply orb_false_iff in E as [E1 E2].
        destruct H as [-> | Hex]; [discriminate E1|].
        apply Exists_exists in Hex as (v & Hv & Hgt).
        assert (Hex : existsb (fun v => v >? maxTAndE) clickValues = true).
        { apply existsb_exists. exists v. split; [apply list_elem_of_In, Hv | lia]. }
        congruence.
    + destruct H2 as [[Er _]|(Er & D & A)]; [left; exact Er|right].
      repeat split; assumption.
Qed.

(** X5.  With click values that pass the guard and a command count of -2 or
    less, no attempt can reach the negative target length: all 10 attempts
    are made, the failure message is logged and the result is empty. *)
Theorem generateDrill_negative_count (numCommands : Z) (clickValues : list Z)
    (maxTAndE : Z) (g : Rng) :
  clickValues <> [] ->
  Forall (fun v => v <= maxTAndE) clickValues ->
  numCommands <= -2 ->
  (generateDrill numCommands clickValues maxTAndE g).1
  = {| drill := []; attempts := 10; errors := [failure_message] |}.
Proof.
  intros Hne Hle Hn. unfold generateDrill. rewrite (guard_passes _ _ Hne Hle).
  apply (attemptLoop_all_fail numCommands clickValues maxTAndE).
  intros g0. unfold attemptOnce, bind, ret.
  destruct (positiveLoop _ clickValues g0) as [ps g1].
  destruct (pickLoop _ _ _ maxTAndE g1) as [final g2]. simpl.
  assert (Ht : totalCommands numCommands < 0).
  { unfold totalCommands. destruct (Z.rem numCommands 2 =? 0); lia. }
  destruct (Z.eqb_spec (Z.of_nat (length final)) (totalCommands numCommands));
    [lia|reflexivity].
Qed.

(** X6.  With click values that pass the guard and a command count of 0 or
    -1, the target length is 0: the first attempt succeeds at once with the
    empty sequence, without a draw and without a log line. *)
Theorem generateDrill_zero_count (numCommands : Z) (clickValues : list Z)
    (maxTAndE : Z) (g : Rng) :
  clickValues <> [] ->
  Forall (fun v => v <= maxTAndE) clickValues ->
  numCommands = 0 \/ numCommands = -1 ->
  generateDrill numCommands clickValues maxTAndE g
  = ({| drill := []; attempts := 1; errors := [] |}, g).
Proof.
  intros Hne Hle Hn. apply generateDrill_first_attempt; [exact Hne|exact Hle|].
  destruct Hn as [-> | ->]; reflexivity.
Qed.

(** X7.  From a position within the bound and for a magnitude that is not
    negative, [isMoveValid] accepts a command exactly when the position after
    the command is still within the bound on both axes. *)
Theorem isMoveValid_iff_within (command : DrillCommand)
    (currentTraverse currentElevation maxTAndE : Z) :
  withinBound maxTAndE (currentTraverse, currentElevation) ->
  0 <= value command ->
  isMoveValid command currentTraverse currentElevation maxTAndE = true <->
  withinBound maxTAndE (applyCommand command (currentTraverse, currentElevation)).
Proof.
  intros [Ht He] Hv. destruct command as [d v]. simpl in *.
  unfold isMoveValid, withinBound, applyCommand; simpl.
  destruct d; simpl; rewrite ?Z.leb_le, ?Z.geb_le; lia.
Qed.

(** X8.  A positive command of a magnitude within the bound and its opposite
    are never both invalid, wherever the position is. *)
Theorem isMoveValid_one_of_opposites (command : DrillCommand)
    (currentTraverse currentElevation maxTAndE : Z) :
  direction command = Up \/ direction command = Right ->
  value command <= maxTAndE ->
  isMoveValid command currentTraverse currentElevation maxTAndE = true \/
  isMoveValid (opposite command) currentTraverse currentElevation maxTAndE = true.
Proof.
  intros Hd Hv. destruct command as [d v]. simpl in *.
  unfold isMoveValid, opposite; simpl.
  destruct Hd as [-> | ->]; simpl; rewrite ?Z.leb_le, ?Z.geb_le; lia.
Qed.

End GeneratorMore.

Section GeneratorMoreExamples.
Import Rand Generator.
Local Open Scope Z_scope.

Lemma generateDrill_feasible_first_attempt_witness :
  [10; 25] <> [] /\ Forall (fun v => 0 <= v <= 25) [10; 25] /\ -1 <= 7 /\
  attempts (generateDrill 7 [10; 25] 25 sample_rng).1 = 1%nat /\
  errors (generateDrill 7 [10; 25] 25 sample_rng).1 = [] /\
  Z.of_nat (length (drill (generateDrill 7 [10; 25] 25 sample_rng).1)) = 8.
Proof.
  assert (H1 : [10; 25] <> @nil Z) by discriminate.
  assert (H2 : Forall (fun v => 0 <= v <= 25) [10; 25]) by (repeat constructor; lia).
  assert (H3 : -1 <= 7) by lia.
  split; [exact H1|]. split; [exact H2|]. split; [exact H3|].
  exact (generateDrill_feasible_first_attempt 7 [10; 25] 25 sample_rng H1 H2 H3).
Defined.

Lemma generateDrill_negative_count_witness :
  [5] <> [] /\ Forall (fun v => v <= 25) [5] /\ -3 <= -2 /\
  (generateDrill (-3) [5] 25 sample_rng).1
  = {| drill := []; attempts := 10; errors := [failure_message] |}.
Proof.
  assert (H1 : [5] <> @nil Z) by discriminate.
  assert (H2 : Forall (fun v => v <= 25) [5]) by (repeat constructor; lia).
  assert (H3 : -3 <= -2) by lia.
  split; [exact H1|]. split; [exact H2|]. split; [exact H3|].
  exact (generateDrill_negative_count (-3) [5] 25 sample_rng H1 H2 H3).
Defined.

Lemma generateDrill_zero_count_witness :
  [5] <> [] /\ Forall (fun v => v <= 25) [5] /\ (-1 = 0 \/ -1 = -1) /\
  generateDrill (-1) [5] 25 sample_rng
  = ({| drill := []; attempts := 1; errors := [] |}, sample_rng).
Proof.
  assert (H1 : [5] <> @nil Z) by discriminate.
  assert (H2 : Forall (fun v => v <= 25) [5]) by (repeat constructor; lia).
  assert (H3 : -1 = 0 \/ -1 = -1) by (right; reflexivity).
  split; [exact H1|]. split; [exact H2|]. split; [exact H3|].
  exact (generateDrill_zero_count (-1) [5] 25 sample_rng H1 H2 H3).
Defined.

Lemma isMoveValid_iff_within_witness :
  withinBound 25 (20, 0) /\ 0 <= 10 /\
  (isMoveValid {| direction := Right; value := 10 |} 20 0 25 = true <->
   withinBound 25 (applyCommand {| direction := Right; value := 10 |} (20, 0))).
Proof.
  assert (H1 : withinBound 25 (20, 0)) by (unfold withinBound; simpl; lia).
  assert (H2 : 0 <= 10) by lia.
  split; [exact H1|]. split; [exact H2|].
  exact (isMoveValid_iff_within {| direction := Right; value := 10 |} 20 0 25 H1 H2).
Defined.

Lemma isMoveValid_one_of_opposites_witness :
  (Up = Up \/ Up = Right) /\ 25 <= 25 /\
  (isMoveValid {| direction := Up; value := 25 |} 0 10 25 = true \/
   isMoveValid (opposite {| direction := Up; value := 25 |}) 0 10 25 = true).
Proof.
  assert (H1 : Up = Up \/ Up = Right) by (left; reflexivity).
  assert (H2 : 25 <= 25) by lia.
  split; [exact H1|]. split; [exact H2|].
  exact (isMoveValid_one_of_opposites {| direction := Up; value := 25 |} 0 10 25 H1 H2).
Defined.

End GeneratorMoreExamples.

(* ------------------------------------------------------------------------- *)
(** ** The speech cue player: sequences of calls, rates *)

Section SpeechMore.
Import Speech.
Local Open Scope Q_scope.

Lemma inFlight_snoc (l : list SynthCall) (c : SynthCall) :
  inFlight (l ++ [c])
  = match c with Cancel => [] | Speak u => inFlight l ++ [u] end.
Proof. unfold inFlight. rewrite fold_left_app. reflexivity. Qed.

Lemma Math_round_mono (x y : Q) : x <= y -> (Math_round x <= Math_round y)%Z.
Proof. intros H. unfold Math_round. apply Qfloor_resp_le. lra. Qed.

Lemma calculateAutoSpeed_lower (interval : Q) : 2 <= calculateAutoSpeed interval.
Proof.
  unfold calculateAutoSpeed. destruct (Qle_bool 1 interval) eqn:E; [lra|].
  assert (Hi : interval < 1).
  { apply Qnot_le_lt. intros H. apply Qle_bool_iff in H. congruence. }
  assert (H0 : (Math_round 0 <= Math_round ((1 - interval) * 10))%Z)
    by (apply Math_round_mono; lra).
  change (Math_round 0) with 0%Z in H0. rewrite Zle_Qle in H0.
  change (inject_Z 0) with 0 in H0. lra.
Qed.

Lemma calculateAutoSpeed_upper (interval : Q) :
  0 <= interval -> calculateAutoSpeed interval <= 5.
Proof.
  intros H. unfold calculateAutoSpeed. destruct (Qle_bool 1 interval) eqn:E; [lra|].
  assert (H0 : (Math_round ((1 - interval) * 10) <= Math_round 10)%Z)
    by (apply Math_round_mono; lra).
  change (Math_round 10) with 10%Z in H0. rewrite Zle_Qle in H0.
  change (inject_Z 10) with 10 in H0. lra.
Qed.

Lemma clamp_identity (r : Q) :
  1 # 2 <= r -> r <= 10 -> Qmin 10 (Qmax (1 # 2) r) == r.
Proof.
  intros H1 H2. rewrite (Q.max_r _ _ H1). apply Q.min_r. exact H2.
Qed.

Lemma sameCues_refl (c : gmap string SpeechSynthesisUtterance) : sameCues c c.
Proof. intros k. destruct (c !! k); auto. Qed.

Lemma sameCues_trans (c1 c2 c3 : gmap string SpeechSynthesisUtterance) :
  sameCues c1 c2 -> sameCues c2 c3 -> sameCues c1 c3.
Proof.
  intros H12 H23 k. specialize (H12 k). specialize (H23 k).
  destruct (c1 !! k), (c2 !! k), (c3 !! k); try tauto.
  destruct H12 as (-> & -> & ->). exact H23.
Qed.

Lemma play_sameCues (command : DrillCommand) (interval : Q) (manualSpeed : bool)
    (speedMultiplier : Q) (s : CommandPlayer * Browser) :
  sameCues (utteranceCache s.1)
    (utteranceCache (play command interval manualSpeed speedMultiplier s).1).
Proof.
  destruct s as [p b]. unfold play. simpl.
  destruct (isSupported p); simpl; [|apply sameCues_refl].
  destruct (utteranceCache p !! commandToKey command) as [u|] eqn:Hc; simpl;
    [|apply sameCues_refl].
  intros k. rewrite lookup_insert. case_decide as Hk.
  - subst k. rewrite Hc. simpl. auto.
  - destruct (utteranceCache p !! k); auto.
Qed.

Lemma invoke_sameCues (m : Method) (s : CommandPlayer * Browser) :
  isPreload m = false ->
  sameCues (utteranceCache s.1) (utteranceCache (invoke s m).1) /\
  isSupported (invoke s m).1 = isSupported s.1.
Proof.
  intros Hm. destruct m as [| cv | c i ms sp |]; try discriminate Hm; simpl.
  - destruct s as [p b]. unfold warmUp. destruct (isSupported p); simpl;
      split; try apply sameCues_refl; reflexivity.
  - split; [apply play_sameCues|].
    destruct s as [p b]. unfold play. simpl.
    destruct (isSupported p) eqn:E; simpl; [|exact E].
    destruct (utteranceCache p !! commandToKey c); simpl; [reflexivity|exact E].
  - destruct s as [p b]. unfold stop. destruct (isSupported p); simpl;
      split; try apply sameCues_refl; reflexivity.
Qed.

Lemma invokeAll_sameCues (ms : list Method) : forall s,
  forallb (fun m => negb (isPreload m)) ms = true ->
  sameCues (utteranceCache s.1) (utteranceCache (invokeAll ms s).1) /\
  isSupported (invokeAll ms s).1 = isSupported s.1.
Proof.
  induction ms as [|m ms IH]; intros s H; simpl.
  - split; [apply sameCues_refl|reflexivity].
  - simpl in H. apply andb_true_iff in H as [Hm Hms].
    apply negb_true_iff in Hm.
    destruct (invoke_sameCues m s Hm) as [H1 H2].
    destruct (IH (invoke s m) Hms) as [H3 H4].
    split; [eapply sameCues_trans; eauto | congruence].
Qed.

(** At most one cue in flight: kept by every call but [warmUp]. *)
Lemma invoke_inFlight (m : Method) (s : CommandPlayer * Browser) :
  isWarmUp m = false ->
  (length (inFlight (synthCalls s.2)) <= 1)%nat ->
  (length (inFlight (synthCalls (invoke s m).2)) <= 1)%nat.
Proof.
  intros Hm Hs. destruct m as [| cv | c i ms sp |]; try discriminate Hm; simpl.
  - exact Hs.
  - destruct s as [p b]. unfold play. simpl in *.
    destruct (isSupported p); simpl; [|exact Hs].
    destruct (utteranceCache p !! commandToKey c); simpl; [|exact Hs].
    rewrite inFlight_app. simpl. lia.
  - destruct s as [p b]. unfold stop. simpl in *.
    destruct (isSupported p); simpl; [|exact Hs].
    rewrite inFlight_snoc. simpl. lia.
Qed.

Lemma invoke_unsupported (m : Method) (s : CommandPlayer * Browser) :
  isSupported s.1 = false -> invoke s m = s.
Proof.
  destruct s as [p b]. simpl. intros Hs.
  destruct m; simpl; unfold warmUp, preload, play, stop; rewrite Hs; reflexivity.
Qed.

(** X9.  After [preload clickValues] on a supported platform, [play] of any
    direction with a value of [clickValues] never warns: it cancels and then
    speaks the cue whose words are the direction and the value, at pitch 1 and
    volume 1, and at the requested rate clamped into [0.5, 10]. *)
Theorem play_after_preload (clickValues : list Z) (d : Direction) (v : Z)
    (interval : Q) (manualSpeed : bool) (speedMultiplier : Q)
    (p : CommandPlayer) (b : Browser) :
  isSupported p = true ->
  v ∈ clickValues ->
  (play {| direction := d; value := v |} interval manualSpeed speedMultiplier
     (preload clickValues p, b)).2
  = {| synthCalls := synthCalls b ++
         [Cancel;
          Speak {| text := Direction_str d +:+ " " +:+ pretty v; pitch := 1; volume := 1;
                   rate := Qmin 10 (Qmax (1 # 2)
                             (if manualSpeed then speedMultiplier
                              else calculateAutoSpeed interval)) |}];
       warnings := warnings b |}.
Proof.
  intros Hs Hv.
  assert (Hs' : isSupported (preload clickValues p) = true)
    by (unfold preload; rewrite Hs; reflexivity).
  assert (Hc : utteranceCache (preload clickValues p)
                 !! commandToKey {| direction := d; value := v |}
               = Some (utteranceFor d v)).
  { unfold preload. rewrite Hs. simpl. apply preloadLoop_hit, Hv. }
  rewrite (play_cached _ _ _ _ _ _ _ Hs' Hc). reflexivity.
Qed.

(** X10.  After [preload clickValues] on a supported platform, [play] of a
    command whose value is not in [clickValues] makes no call on the speech
    engine and leaves the cache as it is; it logs the line
    "Command not preloaded: " followed by the direction and the value. *)
Theorem play_value_not_preloaded (clickValues : list Z) (d : Direction) (v : Z)
    (interval : Q) (manualSpeed : bool) (speedMultiplier : Q)
    (p : CommandPlayer) (b : Browser) :
  isSupported p = true ->
  v ∉ clickValues ->
  play {| direction := d; value := v |} interval manualSpeed speedMultiplier
    (preload clickValues p, b)
  = (preload clickValues p,
     {| synthCalls := synthCalls b;
        warnings := warnings b ++
          ["Command not preloaded: " +:+ Direction_str d +:+ " " +:+ pretty v] |}).
Proof.
  intros Hs Hv.
  assert (Hs' : isSupported (preload clickValues p) = true)
    by (unfold preload; rewrite Hs; reflexivity).
  assert (Hc : utteranceCache (preload clickValues p)
                 !! commandToKey {| direction := d; value := v |} = None).
  { unfold preload. rewrite Hs. simpl.
    destruct (preloadLoop clickValues ∅ !! _) as [u|] eqn:E; [|reflexivity].
    exfalso. apply preloadLoop_inv in E as [(d' & v' & Hin & Hk & _)|E].
    - apply commandToKey_inj in Hk. inversion Hk; subst. contradiction.
    - rewrite lookup_empty in E. discriminate E. }
  rewrite (play_uncached _ _ _ _ _ _ Hs' Hc). reflexivity.
Qed.

(** X11.  [preload] depends on the set of the click values only: two lists
    with the same elements, in any order and with any repetitions, leave the
    same player. *)
Theorem preload_same_values (clickValues clickValues' : list Z) (p : CommandPlayer) :
  (forall v, v ∈ clickValues <-> v ∈ clickValues') ->
  preload clickValues p = preload clickValues' p.
Proof.
  intros Hsame. unfold preload. destruct (isSupported p); simpl; [|reflexivity].
  f_equal. apply map_eq. intros k. apply option_eq. intros u. split; intros H.
  - apply preloadLoop_inv in H as [(d & v & Hin & -> & ->)|H].
    + apply preloadLoop_hit, Hsame, Hin.
    + rewrite lookup_empty in H. discriminate H.
  - apply preloadLoop_inv in H as [(d & v & Hin & -> & ->)|H].
    + apply preloadLoop_hit, Hsame, Hin.
    + rewrite lookup_empty in H. discriminate H.
Qed.

(** X12.  On a platform without speech synthesis every method is a no-op:
    whatever the sequence of calls of [warmUp], [preload], [play] and [stop],
    the player and the host are left exactly as they were (no engine call, no
    warning, empty cache kept). *)
Theorem unsupported_player_is_inert (ms : list Method) (p : CommandPlayer) (b : Browser) :
  isSupported p = false ->
  invokeAll ms (p, b) = (p, b).
Proof.
  intros Hs. induction ms as [|m ms IH]; [reflexivity|].
  unfold invokeAll in *. simpl fold_left.
  rewrite (invoke_unsupported m (p, b) Hs). exact IH.
Qed.

(** X13.  Once [preload clickValues] has run on a supported platform, any
    sequence of [warmUp], [play] and [stop] calls keeps every preloaded cue
    playable: for each direction and each value of [clickValues] the cache
    still holds a cue with the words of the pair, at pitch 1 and volume 1
    (only its rate may have been rewritten by [play]). *)
Theorem preloaded_cues_persist (clickValues : list Z) (ms : list Method)
    (p : CommandPlayer) (b : Browser) (d : Direction) (v : Z) :
  isSupported p = true ->
  forallb (fun m => negb (isPreload m)) ms = true ->
  v ∈ clickValues ->
  exists u,
    utteranceCache (invokeAll ms (preload clickValues p, b)).1
      !! commandToKey {| direction := d; value := v |} = Some u /\
    text u = Direction_str d +:+ " " +:+ pretty v /\ pitch u = 1 /\ volume u = 1.
Proof.
  intros Hs Hms Hv.
  destruct (invokeAll_sameCues ms (preload clickValues p, b) Hms) as [Hsame _].
  specialize (Hsame (commandToKey {| direction := d; value := v |})).
  simpl in Hsame. unfold preload in Hsame at 1. rewrite Hs in Hsame. simpl in Hsame.
  rewrite (preloadLoop_hit clickValues ∅ d v Hv) in Hsame.
  destruct (utteranceCache (invokeAll ms (preload clickValues p, b)).1 !! _) as [u|];
    [|contradiction].
  exists u. destruct Hsame as (Ht & Hp & Hvol). split; [reflexivity|].
  rewrite <- Ht, <- Hp, <- Hvol. repeat split.
Qed.

(** X14.  No overlap: if at most one cue is in flight, then after any sequence
    of [preload], [play] and [stop] calls at most one cue is in flight. *)
Theorem at_most_one_cue_in_flight (ms : list Method) (s : CommandPlayer * Browser) :
  forallb (fun m => negb (isWarmUp m)) ms = true ->
  (length (inFlight (synthCalls s.2)) <= 1)%nat ->
  (length (inFlight (synthCalls (invokeAll ms s).2)) <= 1)%nat.
Proof.
  revert s. induction ms as [|m ms IH]; intros s Hms Hs; [exact Hs|].
  simpl in Hms. apply andb_true_iff in Hms as [Hm Hms].
  apply negb_true_iff in Hm. unfold invokeAll in *. simpl fold_left.
  apply IH; [exact Hms|]. apply invoke_inFlight; assumption.
Qed.

(** X15.  [stop] on a supported platform leaves nothing in flight, whatever
    was spoken or queued before, and does not touch the cache. *)
Theorem stop_empties_queue (p : CommandPlayer) (b : Browser) :
  isSupported p = true ->
  inFlight (synthCalls (stop (p, b)).2) = [] /\ (stop (p, b)).1 = p.
Proof.
  intros Hs. unfold stop. rewrite Hs. simpl. rewrite inFlight_snoc. split; reflexivity.
Qed.

(** X16.  The automatic rate is never below the base rate 2.0, and for an
    interval that is not negative it is at most 5.0 (ten steps of 0.3): the
    clamp of [play] into [0.5, 10] then leaves the automatic rate as it is. *)
Theorem calculateAutoSpeed_range (interval : Q) :
  0 <= interval ->
  2 <= calculateAutoSpeed interval /\ calculateAutoSpeed interval <= 5 /\
  Qmin 10 (Qmax (1 # 2) (calculateAutoSpeed interval)) == calculateAutoSpeed interval.
Proof.
  intros H. pose proof (calculateAutoSpeed_lower interval) as L.
  pose proof (calculateAutoSpeed_upper interval H) as U.
  split; [exact L|]. split; [exact U|]. apply clamp_identity; lra.
Qed.

(** X17.  The automatic rate does not go down when the interval gets shorter:
    for intervals [a <= b], the rate for [b] is at most the rate for [a]. *)
Theorem calculateAutoSpeed_antitone (a b : Q) :
  a <= b -> calculateAutoSpeed b <= calculateAutoSpeed a.
Proof.
  intros Hab. pose proof (calculateAutoSpeed_lower a) as La.
  unfold calculateAutoSpeed in *.
  destruct (Qle_bool 1 b) eqn:Eb; [exact La|].
  destruct (Qle_bool 1 a) eqn:Ea.
  - apply Qle_bool_iff in Ea.
    assert (Hb : 1 <= b) by lra. apply Qle_bool_iff in Hb. congruence.
  - assert (H0 : (Math_round ((1 - b) * 10) <= Math_round ((1 - a) * 10))%Z)
      by (apply Math_round_mono; lra).
    rewrite Zle_Qle in H0. lra.
Qed.

End SpeechMore.

(* ------------------------------------------------------------------------- *)
(** ** The drill runner: the run of a sequence *)

Section RunnerMore.
Import Runner.
Local Open Scope Z_scope.

Lemma gridUpdate_clamp (p : Props) (c : DrillCommand) (s : State) :
  gridUpdate p c s
  = {| currentCommandIndex := currentCommandIndex s;
       tAndERef := clamp (maxTAndE p) (Generator.applyCommand c (tAndERef s)) |}.
Proof.
  unfold gridUpdate, clamp.
  destruct (Generator.applyCommand c (tAndERef s)) as [t e]. reflexivity.
Qed.

(** The run from the middle of a sequence is the trace of the cycles of the
    commands that are left. *)
Lemma runFrom_cycles (p : Props) (rest : list DrillCommand) :
  forall (done : list DrillCommand) (s : State) (fuel : nat),
    commands p = done ++ rest ->
    rest <> [] ->
    currentCommandIndex s = length done ->
    (length rest <= fuel)%nat ->
    runFrom fuel p s
    = ({| currentCommandIndex := (length (commands p) - 1)%nat;
          tAndERef := clampedPositionFrom (maxTAndE p) rest (tAndERef s) |},
       cycles p rest (tAndERef s)).
Proof.
  induction rest as [|c rest IH]; intros done s fuel Hcmds Hne Hidx Hfuel;
    [congruence|].
  destruct fuel as [|fuel]; [simpl in Hfuel; lia|].
  assert (Hc : commands p !! currentCommandIndex s = Some c).
  { rewrite Hcmds, Hidx. rewrite lookup_app_r by lia.
    replace (length done - length done)%nat with 0%nat by lia. reflexivity. }
  assert (Hlen : length (commands p) = (length done + S (length rest))%nat).
  { rewrite Hcmds, length_app. reflexivity. }
  cbn [runFrom]. rewrite Hc. rewrite gridUpdate_clamp.
  unfold nextCommand. cbn [currentCommandIndex tAndERef].
  assert (Heff : effect p s
            = (if voiceEnabled p
               then [if Qle_bool MIN_SPEECH_INTERVAL_S (commandInterval p)
                     then PlayerPlay c (commandInterval p) (ttsManualSpeed p)
                            (ttsSpeedMultiplier p)
                     else PlayerStop]
               else [])
              ++ [SetTimeout gridUpdateTimer ((commandInterval p * 1000) / 2)%Q;
                  SetTimeout nextCommandTimer (commandInterval p * 1000)%Q]).
  { unfold effect. rewrite Hc. reflexivity. }
  destruct rest as [|c' rest'].
  - destruct (Z.geb_spec (Z.of_nat (currentCommandIndex s))
                (Z.of_nat (length (commands p)) - 1)) as [_|Hlt];
      [|simpl in Hlen; lia].
    rewrite Heff. cbn [cycles clampedPositionFrom fold_left].
    rewrite <- app_assoc. f_equal. f_equal. simpl in Hlen. lia.
  - destruct (Z.geb_spec (Z.of_nat (currentCommandIndex s))
                (Z.of_nat (length (commands p)) - 1)) as [Hge|_];
      [simpl in Hlen; lia|].
    rewrite (IH (done ++ [c])
               {| currentCommandIndex := S (currentCommandIndex s);
                  tAndERef := clamp (maxTAndE p) (Generator.applyCommand c (tAndERef s)) |}
               fuel).
    + rewrite Heff. cbn [cycles clampedPositionFrom fold_left tAndERef].
      rewrite <- app_assoc. reflexivity.
    + rewrite <- app_assoc. exact Hcmds.
    + discriminate.
    + cbn [currentCommandIndex]. rewrite length_app. simpl. lia.
    + simpl in Hfuel |- *. lia.
Qed.

Lemma runDrill_cycles (p : Props) :
  commands p <> [] ->
  runDrill p
  = ({| currentCommandIndex := (length (commands p) - 1)%nat;
        tAndERef := clampedPositionFrom (maxTAndE p) (commands p) (0, 0) |},
     cycles p (commands p) (0, 0)).
Proof.
  intros Hne. unfold runDrill.
  apply (runFrom_cycles p (commands p) [] initialState); auto.
Qed.

(** What the trace of the cycles holds. *)
Lemma cycles_reported (p : Props) (rest : list DrillCommand) : forall pos,
  rest <> [] ->
  reported (cycles p rest pos) = [clampedPositionFrom (maxTAndE p) rest pos] /\
  exists pre,
    cycles p rest pos
    = pre ++ [OnFinish (clampedPositionFrom (maxTAndE p) rest pos).1
                       (clampedPositionFrom (maxTAndE p) rest pos).2] /\
    reported pre = [].
Proof.
  induction rest as [|c rest IH]; intros pos Hne; [congruence|].
  cbn [cycles clampedPositionFrom fold_left].
  generalize (clamp (maxTAndE p) (Generator.applyCommand c pos)). intros pos'.
  set (speech := if voiceEnabled p then _ else _).
  assert (Hs : reported speech = []).
  { subst speech. destruct (voiceEnabled p); [|reflexivity].
    destruct (Qle_bool _ _); reflexivity. }
  destruct rest as [|c' rest'].
  - split.
    + unfold reported in *. rewrite !omap_app, Hs. simpl.
      destruct pos'; reflexivity.
    + eexists. rewrite app_assoc. split; [reflexivity|].
      unfold reported in *. rewrite omap_app, Hs. reflexivity.
  - destruct (IH pos' ltac:(discriminate)) as (Hr & pre & Hpre & Hnone).
    fold (clampedPositionFrom (maxTAndE p) (c' :: rest') pos') in *.
    split.
    + unfold reported in *. rewrite !omap_app, Hs. simpl. exact Hr.
    + rewrite Hpre. eexists. rewrite !app_assoc. split; [reflexivity|].
      unfold reported in *. rewrite !omap_app, Hs, Hnone. reflexivity.
Qed.

Lemma cycles_played (p : Props) (rest : list DrillCommand) : forall pos,
  played (cycles p rest pos)
  = if voiceEnabled p && Qle_bool MIN_SPEECH_INTERVAL_S (commandInterval p)
    then rest else [].
Proof.
  induction rest as [|c rest IH]; intros pos.
  - simpl. destruct (_ && _); reflexivity.
  - cbn [cycles]. unfold played in *. rewrite !omap_app.
    assert (Hlast : omap (fun a => match a with PlayerPlay c0 _ _ _ => Some c0 | _ => None end)
                      match rest with
                      | [] => [OnFinish
                                 (clamp (maxTAndE p) (Generator.applyCommand c pos)).1
                                 (clamp (maxTAndE p) (Generator.applyCommand c pos)).2]
                      | _ :: _ => cycles p rest
                                    (clamp (maxTAndE p) (Generator.applyCommand c pos))
                      end
                    = if voiceEnabled p && Qle_bool MIN_SPEECH_INTERVAL_S (commandInterval p)
                      then rest else []).
    { destruct rest as [|c' rest']; [simpl; destruct (_ && _); reflexivity|]. apply IH. }
    rewrite Hlast.
    destruct (voiceEnabled p); [|reflexivity].
    destruct (Qle_bool MIN_SPEECH_INTERVAL_S (commandInterval p)); reflexivity.
Qed.

Lemma cycles_armed (p : Props) (rest : list DrillCommand) : forall pos,
  armed (cycles p rest pos)
  = flat_map (fun _ => [gridUpdateTimer; nextCommandTimer]) rest.
Proof.
  induction rest as [|c rest IH]; intros pos; [reflexivity|].
  cbn [cycles flat_map]. unfold armed in *. rewrite !omap_app.
  assert (Hs : omap (fun a => match a with SetTimeout t _ => Some t | _ => None end)
                 (if voiceEnabled p
                  then [if Qle_bool MIN_SPEECH_INTERVAL_S (commandInterval p)
                        then PlayerPlay c (commandInterval p) (ttsManualSpeed p)
                               (ttsSpeedMultiplier p)
                        else PlayerStop]
                  else []) = []).
  { destruct (voiceEnabled p); [|reflexivity]. destruct (Qle_bool _ _); reflexivity. }
  rewrite Hs. simpl. do 2 f_equal.
  destruct rest as [|c' rest']; [reflexivity|]. apply IH.
Qed.

(** Inside the bound the clamp changes nothing. *)
Lemma clamp_within (m : Z) (pos : Z * Z) :
  Generator.withinBound m pos -> clamp m pos = pos.
Proof.
  destruct pos as [t e]. unfold Generator.withinBound, clamp. simpl.
  intros [Ht He]. f_equal; lia.
Qed.

Lemma clampedPositionFrom_within (m : Z) (cmds : list DrillCommand) : forall pos,
  (forall k, Generator.withinBound m
               (fold_left (fun p c => Generator.applyCommand c p) (firstn k cmds) pos)) ->
  clampedPositionFrom m cmds pos
  = fold_left (fun p c => Generator.applyCommand c p) cmds pos.
Proof.
  induction cmds as [|c cmds IH]; intros pos H; [reflexivity|].
  cbn [clampedPositionFrom fold_left].
  rewrite clamp_within by (apply (H 1%nat)).
  apply IH. intros k. apply (H (S k)).
Qed.

Lemma clamp_withinBound (m : Z) (pos : Z * Z) :
  0 <= m -> Generator.withinBound m (clamp m pos).
Proof. intros Hm. unfold Generator.withinBound, clamp. simpl. lia. Qed.

Lemma clampedPositionFrom_withinBound (m : Z) (cmds : list DrillCommand) : forall pos,
  0 <= m -> cmds <> [] -> Generator.withinBound m (clampedPositionFrom m cmds pos).
Proof.
  induction cmds as [|c cmds IH]; intros pos Hm Hne; [congruence|].
  cbn [clampedPositionFrom fold_left].
  destruct cmds as [|c' cmds']; [apply clamp_withinBound, Hm|].
  apply IH; [exact Hm|discriminate].
Qed.

(** X18.  The run of a sequence that is not empty reports the final position
    exactly once, as the last thing it does; the position reported is the one
    held by [tAndERef], reached from (0,0) by applying each command and
    clamping after each; and each command arms its two timers, the grid
    update before the advance. *)
Theorem runDrill_reports_once (p : Props) :
  commands p <> [] ->
  reported (runDrill p).2 = [tAndERef (runDrill p).1] /\
  tAndERef (runDrill p).1 = clampedPositionFrom (maxTAndE p) (commands p) (0, 0) /\
  (exists pre t e, (runDrill p).2 = pre ++ [OnFinish t e] /\ reported pre = []) /\
  armed (runDrill p).2
  = flat_map (fun _ => [gridUpdateTimer; nextCommandTimer]) (commands p).
Proof.
  intros Hne. rewrite (runDrill_cycles p Hne). cbn [fst snd tAndERef].
  destruct (cycles_reported p (commands p) (0, 0) Hne) as (Hr & pre & Hpre & Hnone).
  split; [exact Hr|]. split; [reflexivity|]. split; [|apply cycles_armed].
  exists pre. eauto.
Qed.

(** X19.  In the run of a sequence that is not empty, the commands handed to
    the player are the whole sequence, each once and in order, when voice is
    enabled and the interval is at least 0.1s; otherwise no command is handed
    to the player at all. *)
Theorem runDrill_played (p : Props) :
  commands p <> [] ->
  played (runDrill p).2
  = if voiceEnabled p && Qle_bool MIN_SPEECH_INTERVAL_S (commandInterval p)
    then commands p else [].
Proof.
  intros Hne. rewrite (runDrill_cycles p Hne). apply cycles_played.
Qed.

(** X20.  Whatever the commands of a sequence that is not empty, with a bound
    that is not negative the position that the run reports is within the
    bound on both axes. *)
Theorem runDrill_reports_within_bound (p : Props) :
  commands p <> [] ->
  0 <= maxTAndE p ->
  Forall (Generator.withinBound (maxTAndE p)) (reported (runDrill p).2).
Proof.
  intros Hne Hm. rewrite (runDrill_cycles p Hne). cbn [snd].
  destruct (cycles_reported p (commands p) (0, 0) Hne) as (Hr & _).
  rewrite Hr. constructor; [|constructor].
  apply clampedPositionFrom_withinBound; assumption.
Qed.

(** X21.  When every prefix of the sequence keeps the position within the
    bound, the clamp of the grid update never acts: the run reports the plain
    sum of the commands. *)
Theorem runDrill_unclamped (p : Props) :
  commands p <> [] ->
  (forall k, Generator.withinBound (maxTAndE p)
               (Generator.positionAfter (firstn k (commands p)))) ->
  reported (runDrill p).2 = [Generator.positionAfter (commands p)].
Proof.
  intros Hne Hin. rewrite (runDrill_cycles p Hne). cbn [snd].
  destruct (cycles_reported p (commands p) (0, 0) Hne) as (Hr & _).
  rewrite Hr. f_equal. apply clampedPositionFrom_within. exact Hin.
Qed.

End RunnerMore.

(* ------------------------------------------------------------------------- *)
(** ** The grid *)

Section GridFacts.
Import Grid.
Local Open Scope Q_scope.

Lemma ratio_range (c m : Z) :
  (0 < m)%Z -> (- m <= c <= m)%Z ->
  -1 <= inject_Z c / inject_Z m /\ inject_Z c / inject_Z m <= 1.
Proof.
  intros Hm [H1 H2].
  assert (Hm' : inject_Z 0 < inject_Z m) by (rewrite <- Zlt_Qlt; exact Hm).
  change (inject_Z 0) with 0 in Hm'.
  rewrite Zle_Qle in H1, H2. rewrite inject_Z_opp in H1. split.
  - apply Qle_shift_div_l; [exact Hm'|lra].
  - apply Qle_shift_div_r; [exact Hm'|lra].
Qed.

(** X22.  For a bound above zero the reticle is drawn on the grid, wherever
    the position is: both percentages are between 0 and 100; and the origin
    is drawn at the centre. *)
Theorem reticle_on_grid (traverse elevation maxTAndE : Z) :
  (0 < maxTAndE)%Z ->
  (0 <= (reticle traverse elevation maxTAndE).1 /\
   (reticle traverse elevation maxTAndE).1 <= 100) /\
  (0 <= (reticle traverse elevation maxTAndE).2 /\
   (reticle traverse elevation maxTAndE).2 <= 100) /\
  (reticle 0 0 maxTAndE).1 == 50 /\ (reticle 0 0 maxTAndE).2 == 50.
Proof.
  intros Hm. unfold reticle. cbn [fst snd].
  pose proof (ratio_range (Z.max (- maxTAndE) (Z.min maxTAndE traverse)) maxTAndE Hm
                ltac:(lia)) as [T1 T2].
  pose proof (ratio_range (Z.max (- maxTAndE) (Z.min maxTAndE elevation)) maxTAndE Hm
                ltac:(lia)) as [E1 E2].
  split; [split; lra|]. split; [split; lra|].
  replace (Z.max (- maxTAndE) (Z.min maxTAndE 0)) with 0%Z by lia.
  assert (Hz : inject_Z 0 / inject_Z maxTAndE == 0).
  { unfold Qdiv. change (inject_Z 0) with 0. lra. }
  rewrite Hz. split; reflexivity.
Qed.

End GridFacts.

(* ------------------------------------------------------------------------- *)
(** ** Reading the click values *)

Section TextFacts.
Import Text App.
Local Open Scope Z_scope.

Lemma split_nonempty (sep : ascii) (s : string) : split sep s <> [].
Proof.
  induction s as [|c s IH]; simpl; [discriminate|].
  destruct (bool_decide (c = sep)); [discriminate|].
  destruct (split sep s); [congruence|discriminate].
Qed.

Lemma split_app_sep (sep : ascii) (s1 s2 : string) :
  split sep (s1 +:+ String sep s2) = split sep s1 ++ split sep s2.
Proof.
  induction s1 as [|c s1 IH]; simpl.
  - rewrite bool_decide_eq_true_2 by reflexivity. reflexivity.
  - destruct (bool_decide (c = sep)); [rewrite IH; reflexivity|].
    rewrite IH. pose proof (split_nonempty sep s1).
    destruct (split sep s1); [congruence|reflexivity].
Qed.














Lemma parsedValues_space (s : string) :
  parsedValues (String " "%char s) = parsedValues s.
Proof.
  unfold parsedValues. cbn [split].
  rewrite bool_decide_eq_false_2 by discriminate.
  pose proof (split_nonempty ","%char s) as Hne.
  destruct (split ","%char s) as [|piece pieces]; [congruence|]. reflexivity.
Qed.

Lemma parsedValues_comma (s1 s2 : string) :
  parsedValues (s1 +:+ String ","%char s2) = parsedValues s1 ++ parsedValues s2.
Proof. unfold parsedValues. rewrite split_app_sep. apply omap_app. Qed.

Lemma parsedValues_all_positive (s : string) : Forall (fun v => 0 < v) (parsedValues s).
Proof.
  unfold parsedValues. induction (split ","%char s) as [|piece pieces IH]; [constructor|].
  simpl. destruct (parseInt (trim piece)) as [n|]; [|exact IH].
  destruct (Z.ltb_spec 0 n); [constructor; assumption | exact IH].
Qed.

(** X23.  Whatever the text typed for the click values, the values read from
    it are all strictly positive integers: pieces that are empty, not a
    number, zero or negative are dropped. *)
Theorem parsedValues_positive (clickValues : string) :
  Forall (fun v => 0 < v) (parsedValues clickValues) /\
  parsedValues "" = [] /\
  parsedValues "abc, -3, 0, ,x7" = [].
Proof. split; [apply parsedValues_all_positive|]. split; reflexivity. Qed.

(** X24.  The click values are read piece by piece: the values of two texts
    joined by a comma are the values of the first followed by the values of
    the second, and a space in front of a text changes nothing. *)
Theorem parsedValues_pieces (s1 s2 : string) :
  parsedValues (s1 +:+ "," +:+ s2) = parsedValues s1 ++ parsedValues s2 /\
  parsedValues (" " +:+ s1) = parsedValues s1.
Proof. split; [apply parsedValues_comma | apply parsedValues_space]. Qed.



End TextFacts.

(* ------------------------------------------------------------------------- *)
(** ** From the form to the result *)

Section AppFacts.
Import App.
Local Open Scope Z_scope.

(** What the form has checked when it starts the drill. *)
Lemma handleSubmit_accepts (config : DrillConfig) :
  handleSubmit config = None ->
  parsedValues (clickValues config) <> [] /\
  2 <= numCommands config /\
  5 <= maxTAndE config /\
  Forall (fun v => v <= maxTAndE config) (parsedValues (clickValues config)) /\
  (0 < commandInterval config)%Q.
Proof.
  unfold handleSubmit.
  destruct (parsedValues (clickValues config)) as [|v0 vs] eqn:Ep; [discriminate|].
  cbn [length Nat.eqb].
  destruct (Z.ltb_spec (numCommands config) 2); [discriminate|].
  destruct (Z.ltb_spec (maxTAndE config) 5); [discriminate|].
  destruct (existsb _ _) eqn:Ex; [discriminate|].
  destruct (Qle_bool (commandInterval config) 0) eqn:Eq; [discriminate|].
  intros _. split; [discriminate|]. split; [assumption|]. split; [assumption|]. split.
  - apply Forall_forall. intros v Hv.
    destruct (Z.leb_spec v (maxTAndE config)) as [|Hgt]; [assumption|].
    assert (Hex : existsb (fun v => v >? maxTAndE config) (v0 :: vs) = true).
    { apply existsb_exists. exists v. split; [apply list_elem_of_In, Hv | lia]. }
    congruence.
  - apply Qnot_le_lt. intros Hq. apply Qle_bool_iff in Hq. congruence.
Qed.

Lemma runDrill_empty (p : Runner.Props) :
  Runner.commands p = [] -> Runner.runDrill p = (Runner.initialState, []).
Proof.
  intros H. unfold Runner.runDrill. rewrite H. cbn [length Runner.runFrom].
  unfold Runner.effect. rewrite H. reflexivity.
Qed.

Lemma perform_ready (values : list Z) (s : Speech.CommandPlayer * Speech.Browser)
    (a : Runner.Action) :
  (forall c i ms sp, a = Runner.PlayerPlay c i ms sp -> value c ∈ values) ->
  cuesReady values s ->
  Speech.warnings (perform s a).2 = Speech.warnings s.2 /\ cuesReady values (perform s a).
Proof.
  intros Ha Hready. destruct s as [p b].
  destruct a as [t e | c i ms sp | | tm d]; cbn [perform];
    try (split; [reflexivity|exact Hready]).
  - destruct (Speech.isSupported p) eqn:Hs.
    + destruct c as [d v].
      destruct (Hready Hs d v (Ha _ _ _ _ eq_refl)) as [u Hu].
      rewrite (play_cached _ _ _ _ _ _ _ Hs Hu). cbn [fst snd Speech.warnings].
      split; [reflexivity|].
      intros _ d' v' Hv'. cbn [fst Speech.utteranceCache].
      rewrite lookup_insert. case_decide; [eauto|]. apply (Hready Hs d' v' Hv').
    + rewrite (play_unsupported _ _ _ _ _ _ Hs). split; [reflexivity|exact Hready].
  - unfold Speech.stop. destruct (Speech.isSupported p) eqn:Hs;
      cbn [fst snd Speech.warnings]; (split; [reflexivity|]); [|exact Hready].
    intros Hs' d v Hv. apply (Hready Hs d v Hv).
Qed.

Lemma perform_all_ready (values : list Z) (acts : list Runner.Action) :
  forall s,
    (forall c i ms sp, In (Runner.PlayerPlay c i ms sp) acts -> value c ∈ values) ->
    cuesReady values s ->
    Speech.warnings (fold_left perform acts s).2 = Speech.warnings s.2.
Proof.
  induction acts as [|a acts IH]; intros s Ha Hready; [reflexivity|].
  simpl. destruct (perform_ready values s a) as [Hw Hr]; [|exact Hready|].
  { intros c i ms sp ->. eapply Ha. left. reflexivity. }
  rewrite IH; [exact Hw| |exact Hr].
  intros c i ms sp Hin. eapply Ha. right. exact Hin.
Qed.

Lemma perform_all_silent (acts : list Runner.Action) : forall s,
  (forall a, In a acts ->
     match a with Runner.PlayerPlay _ _ _ _ | Runner.PlayerStop => False | _ => True end) ->
  fold_left perform acts s = s.
Proof.
  induction acts as [|a acts IH]; intros s Ha; [reflexivity|].
  simpl. assert (Hp : perform s a = s).
  { specialize (Ha a (or_introl eq_refl)). destruct a; simpl; tauto. }
  rewrite Hp. apply IH. intros a' Hin. apply Ha. right. exact Hin.
Qed.

Lemma cycles_actions (p : Runner.Props) (rest : list DrillCommand) : forall pos a,
  In a (Runner.cycles p rest pos) ->
  match a with
  | Runner.PlayerPlay c _ _ _ => Runner.voiceEnabled p = true /\ c ∈ rest
  | Runner.PlayerStop => Runner.voiceEnabled p = true
  | _ => True
  end.
Proof.
  induction rest as [|c rest IH]; intros pos a Hin; [destruct Hin|].
  cbn [Runner.cycles] in Hin.
  apply in_app_or in Hin as [Hin|Hin].
  - destruct (Runner.voiceEnabled p); [|destruct Hin].
    destruct Hin as [<-|[]]. destruct (Qle_bool _ _); [|reflexivity].
    split; [reflexivity|left].
  - apply in_app_or in Hin as [Hin|Hin].
    + destruct Hin as [<-|[<-|[]]]; exact I.
    + destruct rest as [|c' rest'].
      * destruct Hin as [<-|[]]. exact I.
      * specialize (IH _ _ Hin). destruct a; try exact IH.
        destruct IH as [Hv Hc]. split; [exact Hv|right; exact Hc].
Qed.

(** The run of a drill that the generator returned for click values that are
    not negative. *)
Lemma generated_run (n : Z) (cv : list Z) (m : Z) (g : Rand.Rng) (p : Runner.Props) :
  Forall (fun v => 0 <= v) cv ->
  Generator.drill (Generator.generateDrill n cv m g).1 <> [] ->
  Runner.commands p = Generator.drill (Generator.generateDrill n cv m g).1 ->
  Runner.maxTAndE p = m ->
  Runner.tAndERef (Runner.runDrill p).1 = (0, 0) /\
  Runner.reported (Runner.runDrill p).2 = [(0, 0)].
Proof.
  intros Hpos Hne Hcmds Hm.
  destruct (generateDrill_sound n cv m g Hpos Hne) as [Hzero Hin].
  assert (Hne' : Runner.commands p <> []) by (rewrite Hcmds; exact Hne).
  assert (Hclamp : Runner.clampedPositionFrom (Runner.maxTAndE p) (Runner.commands p) (0, 0)
                   = (0, 0)).
  { rewrite clampedPositionFrom_within.
    - rewrite Hcmds. exact Hzero.
    - rewrite Hcmds, Hm. exact Hin. }
  rewrite (runDrill_cycles p Hne'). cbn [fst snd Runner.tAndERef].
  destruct (cycles_reported p (Runner.commands p) (0, 0) Hne') as (Hr & _).
  rewrite Hr, Hclamp. split; reflexivity.
Qed.

(** X26.  A configuration accepted by the form always starts a drill that can
    run: [handleStartDrill] moves to [running] with a sequence of
    [numCommands] rounded up to even commands (at least 2), nothing is logged
    as an error, and the run of that sequence reports the position (0,0),
    which the result screen shows as a success. *)
Theorem accepted_config_runs_to_success (a : State) (w : World) (g : Rand.Rng) :
  handleSubmit (drillConfig a) = None ->
  drillState (handleStartDrill a w g).1.1 = running /\
  Z.of_nat (length (commands (handleStartDrill a w g).1.1))
  = (if Z.even (numCommands (drillConfig a)) then numCommands (drillConfig a)
     else numCommands (drillConfig a) + 1) /\
  (2 <= length (commands (handleStartDrill a w g).1.1))%nat /\
  consoleErrors (handleStartDrill a w g).1.2 = consoleErrors w /\
  Runner.reported (Runner.runDrill (runnerProps (handleStartDrill a w g).1.1)).2 = [(0, 0)] /\
  Runner.isSuccess 0 0 = true.
Proof.
  intros Hok.
  destruct (handleSubmit_accepts _ Hok) as (Hne & Hn & Hm & Hle & Hi).
  pose proof (parsedValues_all_positive (clickValues (drillConfig a))) as Hpos.
  assert (Hcv : Forall (fun v => 0 <= v <= maxTAndE (drillConfig a))
                  (parsedValues (clickValues (drillConfig a)))).
  { rewrite Forall_forall in Hpos, Hle. apply Forall_forall. intros v Hv.
    specialize (Hpos v Hv). specialize (Hle v Hv). lia. }
  assert (Hpos0 : Forall (fun v => 0 <= v) (parsedValues (clickValues (drillConfig a)))).
  { eapply Forall_impl; [exact Hpos|]. simpl. intros; lia. }
  destruct (generateDrill_feasible (numCommands (drillConfig a))
              (parsedValues (clickValues (drillConfig a))) (maxTAndE (drillConfig a)) g
              Hne Hcv ltac:(lia)) as (final & g' & Hgen & _ & Hlen).
  assert (Hfinal : final = Generator.drill
                     (Generator.generateDrill (numCommands (drillConfig a))
                        (parsedValues (clickValues (drillConfig a)))
                        (maxTAndE (drillConfig a)) g).1)
    by (rewrite Hgen; reflexivity).
  rewrite totalCommands_round_up in Hlen.
  assert (Hlen2 : (2 <= length final)%nat).
  { destruct (Z.even (numCommands (drillConfig a))); lia. }
  unfold handleStartDrill.
  destruct (parsedValues (clickValues (drillConfig a))) as [|v0 vs] eqn:Ep; [congruence|].
  cbn [length Nat.ltb Nat.leb]. unfold Rand.bind, Rand.ret. rewrite Hgen.
  cbn [fst snd drillState commands consoleErrors Generator.drill Generator.errors].
  split; [reflexivity|]. split; [exact Hlen|]. split; [exact Hlen2|].
  split; [apply app_nil_r|]. split; [|reflexivity].
  eapply (generated_run (numCommands (drillConfig a)) (v0 :: vs)
            (maxTAndE (drillConfig a)) g).
  - exact Hpos0.
  - rewrite <- Hfinal. destruct final; [simpl in Hlen2; lia|discriminate].
  - cbn [runnerProps Runner.commands commands]. exact Hfinal.
  - reflexivity.
Qed.

(** X27.  The generator and the runner together: the run of any sequence that
    [generateDrill] returned for click values that are not negative, under
    the same bound, is never clamped and ends at (0,0); that position is
    reported once and is a success for the result screen. *)
Theorem generated_drill_run_ends_at_zero (numCommands : Z) (clickValues : list Z)
    (maxTAndE : Z) (g : Rand.Rng) (p : Runner.Props) :
  Forall (fun v => 0 <= v) clickValues ->
  Generator.drill (Generator.generateDrill numCommands clickValues maxTAndE g).1 <> [] ->
  Runner.commands p
  = Generator.drill (Generator.generateDrill numCommands clickValues maxTAndE g).1 ->
  Runner.maxTAndE p = maxTAndE ->
  Runner.tAndERef (Runner.runDrill p).1 = (0, 0) /\
  Runner.reported (Runner.runDrill p).2 = [(0, 0)] /\
  Forall (fun pos => Runner.isSuccess pos.1 pos.2 = true)
    (Runner.reported (Runner.runDrill p).2).
Proof.
  intros Hpos Hne Hcmds Hm.
  destruct (generated_run numCommands clickValues maxTAndE g p Hpos Hne Hcmds Hm)
    as [Ht Hr].
  split; [exact Ht|]. split; [exact Hr|]. rewrite Hr. constructor; [reflexivity|constructor].
Qed.

(** X28.  A drill started by [handleStartDrill] never asks the player for a
    cue that was not preloaded: when the player calls of the run are made on
    the player that [handleStartDrill] left, no warning is logged, whatever
    the platform, the voice settings, the earlier cache and the draws. *)
Theorem started_drill_never_misses_a_cue (a : State) (w : World) (g : Rand.Rng) :
  parsedValues (clickValues (drillConfig a)) <> [] ->
  Speech.warnings
    (fold_left perform
       (Runner.runDrill (runnerProps (handleStartDrill a w g).1.1)).2
       (player (handleStartDrill a w g).1.2)).2
  = Speech.warnings (player w).2.
Proof.
  intros Hne. unfold handleStartDrill.
  pose proof (generateDrill_values (numCommands (drillConfig a))
                (parsedValues (clickValues (drillConfig a))) (maxTAndE (drillConfig a)) g)
    as Hvals.
  destruct (parsedValues (clickValues (drillConfig a))) as [|v0 vs] eqn:Ep; [congruence|].
  cbn [length Nat.ltb Nat.leb]. unfold Rand.bind, Rand.ret.
  destruct (Generator.generateDrill _ _ _ g) as [out g'] eqn:Eg. simpl in Hvals.
  cbn [fst snd player].
  set (p := runnerProps _).
  assert (Hcmds : Runner.commands p = Generator.drill out) by reflexivity.
  assert (Hvoice : Runner.voiceEnabled p = voiceEnabled (drillConfig a)) by reflexivity.
  destruct (Generator.drill out) as [|c0 l] eqn:Ed.
  { rewrite (runDrill_empty p Hcmds). simpl.
    destruct (voiceEnabled (drillConfig a)); reflexivity. }
  assert (Hne' : Runner.commands p <> []) by (rewrite Hcmds; discriminate).
  rewrite (runDrill_cycles p Hne'). cbn [snd].
  destruct (voiceEnabled (drillConfig a)) eqn:Ev.
  - erewrite (perform_all_ready (v0 :: vs)); [reflexivity| |].
    + intros c i ms sp Hin. apply cycles_actions in Hin as [_ Hc].
      rewrite Hcmds in Hc. rewrite Forall_forall in Hvals. apply Hvals, Hc.
    + intros Hs d v Hv. cbn [fst] in *. unfold Speech.preload in *.
      destruct (Speech.isSupported (player w).1) eqn:Hs0;
        cbn [negb Speech.utteranceCache Speech.isSupported] in Hs |- *.
      * rewrite (preloadLoop_hit (v0 :: vs) ∅ d v Hv). eauto.
      * congruence.
  - rewrite perform_all_silent; [reflexivity|].
    intros act Hin. apply cycles_actions in Hin.
    destruct act; try exact I; [destruct Hin as [Hin _]|]; congruence.
Qed.

End AppFacts.

(* ------------------------------------------------------------------------- *)
(** ** The further properties on concrete inputs *)

Section MoreExamples.
Import Speech.
Local Open Scope Q_scope.

Lemma play_after_preload_witness :
  isSupported freshPlayer = true /\ 10%Z ∈ [5%Z; 10%Z] /\
  (play {| direction := Left; value := 10 |} (7 # 10) false 2
     (preload [5%Z; 10%Z] freshPlayer, busyBrowser)).2
  = {| synthCalls := synthCalls busyBrowser ++
         [Cancel;
          Speak {| text := "LEFT 10"; pitch := 1; volume := 1;
                   rate := Qmin 10 (Qmax (1 # 2) (calculateAutoSpeed (7 # 10))) |}];
       warnings := [] |}.
Proof.
  assert (H1 : isSupported freshPlayer = true) by reflexivity.
  assert (H2 : 10%Z ∈ [5%Z; 10%Z]) by (right; left).
  split; [exact H1|]. split; [exact H2|].
  exact (play_after_preload [5%Z; 10%Z] Left 10 (7 # 10) false 2 freshPlayer busyBrowser
           H1 H2).
Defined.

Lemma play_value_not_preloaded_witness :
  isSupported freshPlayer = true /\ (15%Z ∉ [5%Z; 10%Z]) /\
  play {| direction := Up; value := 15 |} 1 false 2
    (preload [5%Z; 10%Z] freshPlayer, busyBrowser)
  = (preload [5%Z; 10%Z] freshPlayer,
     {| synthCalls := synthCalls busyBrowser;
        warnings := ["Command not preloaded: UP 15"] |}).
Proof.
  assert (H1 : isSupported freshPlayer = true) by reflexivity.
  assert (H2 : 15%Z ∉ [5%Z; 10%Z]).
  { intros H. apply elem_of_cons in H as [H|H]; [discriminate H|].
    apply elem_of_cons in H as [H|H]; [discriminate H|]. inversion H. }
  split; [exact H1|]. split; [exact H2|].
  exact (play_value_not_preloaded [5%Z; 10%Z] Up 15 1 false 2 freshPlayer busyBrowser
           H1 H2).
Defined.

Lemma preload_same_values_witness :
  (forall v : Z, v ∈ [5%Z; 10%Z; 5%Z] <-> v ∈ [10%Z; 5%Z]) /\
  preload [5%Z; 10%Z; 5%Z] freshPlayer = preload [10%Z; 5%Z] freshPlayer.
Proof.
  assert (H : forall v : Z, v ∈ [5%Z; 10%Z; 5%Z] <-> v ∈ [10%Z; 5%Z]).
  { intros v. rewrite !elem_of_cons, !elem_of_nil. tauto. }
  split; [exact H|].
  exact (preload_same_values [5%Z; 10%Z; 5%Z] [10%Z; 5%Z] freshPlayer H).
Defined.

Lemma unsupported_player_is_inert_witness :
  isSupported (newCommandPlayer false) = false /\
  invokeAll [MWarmUp; MPreload [5%Z]; MPlay {| direction := Up; value := 5 |} 1 false 2; MStop]
    (newCommandPlayer false, busyBrowser)
  = (newCommandPlayer false, busyBrowser).
Proof.
  assert (H : isSupported (newCommandPlayer false) = false) by reflexivity.
  split; [exact H|].
  exact (unsupported_player_is_inert
           [MWarmUp; MPreload [5%Z]; MPlay {| direction := Up; value := 5 |} 1 false 2; MStop]
           (newCommandPlayer false) busyBrowser H).
Defined.

Lemma preloaded_cues_persist_witness :
  isSupported freshPlayer = true /\
  forallb (fun m => negb (isPreload m))
    [MPlay {| direction := Up; value := 5 |} (1 # 2) false 2; MStop; MWarmUp] = true /\
  5%Z ∈ [5%Z] /\
  exists u,
    utteranceCache
      (invokeAll [MPlay {| direction := Up; value := 5 |} (1 # 2) false 2; MStop; MWarmUp]
         (preload [5%Z] freshPlayer, busyBrowser)).1
      !! commandToKey {| direction := Up; value := 5 |} = Some u /\
    text u = "UP 5" /\ pitch u = 1 /\ volume u = 1.
Proof.
  assert (H1 : isSupported freshPlayer = true) by reflexivity.
  assert (H2 : forallb (fun m => negb (isPreload m))
                 [MPlay {| direction := Up; value := 5 |} (1 # 2) false 2; MStop; MWarmUp]
               = true) by reflexivity.
  assert (H3 : 5%Z ∈ [5%Z]) by left.
  split; [exact H1|]. split; [exact H2|]. split; [exact H3|].
  exact (preloaded_cues_persist [5%Z]
           [MPlay {| direction := Up; value := 5 |} (1 # 2) false 2; MStop; MWarmUp]
           freshPlayer busyBrowser Up 5 H1 H2 H3).
Defined.

Lemma at_most_one_cue_in_flight_witness :
  forallb (fun m => negb (isWarmUp m))
    [MPreload [5%Z]; MPlay {| direction := Up; value := 5 |} 1 false 2;
     MPlay {| direction := Down; value := 5 |} 1 false 2] = true /\
  (length (inFlight (synthCalls (freshPlayer, busyBrowser).2)) <= 1)%nat /\
  (length (inFlight (synthCalls
     (invokeAll [MPreload [5%Z]; MPlay {| direction := Up; value := 5 |} 1 false 2;
                 MPlay {| direction := Down; value := 5 |} 1 false 2]
        (freshPlayer, busyBrowser)).2)) <= 1)%nat.
Proof.
  assert (H1 : forallb (fun m => negb (isWarmUp m))
                 [MPreload [5%Z]; MPlay {| direction := Up; value := 5 |} 1 false 2;
                  MPlay {| direction := Down; value := 5 |} 1 false 2] = true)
    by reflexivity.
  assert (H2 : (length (inFlight (synthCalls (freshPlayer, busyBrowser).2)) <= 1)%nat)
    by (simpl; lia).
  split; [exact H1|]. split; [exact H2|].
  exact (at_most_one_cue_in_flight _ (freshPlayer, busyBrowser) H1 H2).
Defined.

Lemma stop_empties_queue_witness :
  isSupported freshPlayer = true /\
  inFlight (synthCalls (stop (freshPlayer, busyBrowser)).2) = [].
Proof.
  assert (H : isSupported freshPlayer = true) by reflexivity.
  split; [exact H|].
  exact (proj1 (stop_empties_queue freshPlayer busyBrowser H)).
Defined.

Lemma calculateAutoSpeed_range_witness :
  0 <= 1 # 4 /\
  2 <= calculateAutoSpeed (1 # 4) /\ calculateAutoSpeed (1 # 4) <= 5 /\
  Qmin 10 (Qmax (1 # 2) (calculateAutoSpeed (1 # 4))) == calculateAutoSpeed (1 # 4).
Proof.
  assert (H : 0 <= 1 # 4) by discriminate.
  split; [exact H|].
  exact (calculateAutoSpeed_range (1 # 4) H).
Defined.

Lemma calculateAutoSpeed_antitone_witness :
  3 # 10 <= 7 # 10 /\ calculateAutoSpeed (7 # 10) <= calculateAutoSpeed (3 # 10).
Proof.
  assert (H : 3 # 10 <= 7 # 10) by discriminate.
  split; [exact H|].
  exact (calculateAutoSpeed_antitone (3 # 10) (7 # 10) H).
Defined.

Lemma runDrill_reports_once_witness :
  Runner.commands Runner.sampleRun <> [] /\
  Runner.reported (Runner.runDrill Runner.sampleRun).2 = [(0%Z, 0%Z)].
Proof.
  assert (H : Runner.commands Runner.sampleRun <> []) by discriminate.
  split; [exact H|].
  exact (proj1 (runDrill_reports_once Runner.sampleRun H)).
Defined.

Lemma runDrill_played_witness :
  Runner.commands Runner.sampleRun <> [] /\
  Runner.played (Runner.runDrill Runner.sampleRun).2 = Runner.commands Runner.sampleRun.
Proof.
  assert (H : Runner.commands Runner.sampleRun <> []) by discriminate.
  split; [exact H|].
  exact (runDrill_played Runner.sampleRun H).
Defined.

Lemma runDrill_reports_within_bound_witness :
  Runner.commands Runner.sampleRun <> [] /\ (0 <= Runner.maxTAndE Runner.sampleRun)%Z /\
  Forall (Generator.withinBound (Runner.maxTAndE Runner.sampleRun))
    (Runner.reported (Runner.runDrill Runner.sampleRun).2).
Proof.
  assert (H1 : Runner.commands Runner.sampleRun <> []) by discriminate.
  assert (H2 : (0 <= Runner.maxTAndE Runner.sampleRun)%Z) by discriminate.
  split; [exact H1|]. split; [exact H2|].
  exact (runDrill_reports_within_bound Runner.sampleRun H1 H2).
Defined.

Lemma runDrill_unclamped_witness :
  Runner.commands Runner.sampleRun <> [] /\
  (forall k, Generator.withinBound (Runner.maxTAndE Runner.sampleRun)
               (Generator.positionAfter (firstn k (Runner.commands Runner.sampleRun)))) /\
  Runner.reported (Runner.runDrill Runner.sampleRun).2
  = [Generator.positionAfter (Runner.commands Runner.sampleRun)].
Proof.
  assert (H1 : Runner.commands Runner.sampleRun <> []) by discriminate.
  assert (H2 : forall k, Generator.withinBound (Runner.maxTAndE Runner.sampleRun)
                 (Generator.positionAfter (firstn k (Runner.commands Runner.sampleRun)))).
  { intros k. do 5 (destruct k as [|k]; [vm_compute; intuition discriminate|]).
    vm_compute. intuition discriminate. }
  split; [exact H1|]. split; [exact H2|].
  exact (runDrill_unclamped Runner.sampleRun H1 H2).
Defined.

Lemma reticle_on_grid_witness :
  (0 < 25)%Z /\
  (0 <= (Grid.reticle 30 (-10) 25).1 /\ (Grid.reticle 30 (-10) 25).1 <= 100) /\
  (0 <= (Grid.reticle 30 (-10) 25).2 /\ (Grid.reticle 30 (-10) 25).2 <= 100).
Proof.
  assert (H : (0 < 25)%Z) by reflexivity.
  split; [exact H|].
  pose proof (reticle_on_grid 30 (-10) 25 H) as (L & T & _).
  split; [exact L | exact T].
Defined.

Lemma accepted_config_runs_to_success_witness :
  App.handleSubmit (App.drillConfig App.initialState) = None /\
  App.drillState (App.handleStartDrill App.initialState App.initialWorld Rand.sample_rng).1.1
  = App.running /\
  length (App.commands
            (App.handleStartDrill App.initialState App.initialWorld Rand.sample_rng).1.1)
  = 10%nat.
Proof.
  assert (H : App.handleSubmit (App.drillConfig App.initialState) = None) by reflexivity.
  split; [exact H|].
  pose proof (accepted_config_runs_to_success App.initialState App.initialWorld
                Rand.sample_rng H) as (R & L & _).
  split; [exact R|]. apply Nat2Z.inj. exact L.
Defined.

Lemma generated_drill_run_ends_at_zero_witness :
  Forall (fun v => (0 <= v)%Z) [5%Z; 10%Z] /\
  Generator.drill (Generator.generateDrill 4 [5%Z; 10%Z] 10 Rand.sample_rng).1 <> [] /\
  Runner.reported
    (Runner.runDrill
       {| Runner.commands :=
            Generator.drill (Generator.generateDrill 4 [5%Z; 10%Z] 10 Rand.sample_rng).1;
          Runner.commandInterval := 1; Runner.voiceEnabled := false;
          Runner.ttsManualSpeed := false; Runner.ttsSpeedMultiplier := 2;
          Runner.maxTAndE := 10 |}).2
  = [(0%Z, 0%Z)].
Proof.
  assert (H1 : Forall (fun v => (0 <= v)%Z) [5%Z; 10%Z])
    by (repeat constructor; discriminate).
  assert (H2 : Generator.drill (Generator.generateDrill 4 [5%Z; 10%Z] 10 Rand.sample_rng).1
               <> []) by (vm_compute; discriminate).
  split; [exact H1|]. split; [exact H2|].
  exact (proj1 (proj2 (generated_drill_run_ends_at_zero 4 [5%Z; 10%Z] 10 Rand.sample_rng
           {| Runner.commands :=
                Generator.drill (Generator.generateDrill 4 [5%Z; 10%Z] 10 Rand.sample_rng).1;
              Runner.commandInterval := 1; Runner.voiceEnabled := false;
              Runner.ttsManualSpeed := false; Runner.ttsSpeedMultiplier := 2;
              Runner.maxTAndE := 10 |} H1 H2 eq_refl eq_refl))).
Defined.

Lemma started_drill_never_misses_a_cue_witness :
  App.parsedValues (App.clickValues (App.drillConfig App.initialState)) <> [] /\
  warnings
    (fold_left App.perform
       (Runner.runDrill
          (App.runnerProps
             (App.handleStartDrill App.initialState App.initialWorld Rand.sample_rng).1.1)).2
       (App.player
          (App.handleStartDrill App.initialState App.initialWorld Rand.sample_rng).1.2)).2
  = [].
Proof.
  assert (H : App.parsedValues (App.clickValues (App.drillConfig App.initialState)) <> [])
    by (vm_compute; discriminate).
  split; [exact H|].
  exact (started_drill_never_misses_a_cue App.initialState App.initialWorld Rand.sample_rng H).
Defined.

End MoreExamples.
